(** * ARE_Tlkify: the string table, the label merge and the label reader

    A shallow embedding of [tlkify.py].  Python objects that the script
    mutates in place are threaded explicitly: every operation takes the
    table it works on and returns the table it leaves behind, wrapped in
    [result] when the Python code can raise. *)

From stdpp Require Import gmap strings list sorting.

Local Open Scope Z_scope.

(** ** Exceptions *)

Inductive exn := ValueError | IndexError | KeyError | TypeError.

Inductive result (A : Type) :=
  | Ok (a : A)
  | Raise (e : exn).
Arguments Ok {A} a.
Arguments Raise {A} e.

#[export] Instance result_ret : MRet result := λ A a, Ok a.
#[export] Instance result_bind : MBind result := λ A B f m,
  match m with Ok a => f a | Raise e => Raise e end.

(** ** Python built-ins used by the script *)

(** [max(xs)]: raises [ValueError] on an empty sequence. *)
Definition py_max (xs : list Z) : result Z :=
  match xs with
  | [] => Raise ValueError
  | x :: xs' => Ok (foldl Z.max x xs')
  end.

(** [range(lo, hi)] as the set of the integers it yields. *)
Definition range (lo hi : Z) : gset Z := list_to_set (seqZ lo (hi - lo)).

(** [set.pop()] removes and returns an arbitrary element of a non-empty
    set.  The choice is left to the implementation of the set; it is a
    parameter of every operation that pops. *)
Record popper := Popper {
  pop :> gset Z → Z;
  pop_elem : ∀ s : gset Z, s ≠ ∅ → pop s ∈ s
}.

(** One such choice: the smallest element. *)
Definition smallest : popper.
Proof.
  refine (Popper (λ s, match elements s with
                       | [] => 0
                       | x :: xs => foldl Z.min x xs
                       end) _).
  intros s Hs. destruct (elements s) as [|x xs] eqn:E.
  - apply elements_empty_inv, leibniz_equiv in E. done.
  - cut (foldl Z.min x xs ∈ x :: xs).
    { rewrite <- E. apply elem_of_elements. }
    clear. revert x. induction xs as [|y ys IH]; intros x; simpl.
    + left.
    + specialize (IH (x `min` y)). apply elem_of_cons in IH as [->|IH].
      * destruct (Z.min_spec x y) as [[_ ->]|[_ ->]];
          [left | right; left].
      * right; right; done.
Defined.

(** A stable sort, as [list.sort] is: [le x y] says that [x] may stay in
    front of [y]. *)
Section stable_sort.
Context {A : Type} (le : A → A → bool).

Fixpoint insert_by (x : A) (l : list A) : list A :=
  match l with
  | [] => [x]
  | y :: l' => if le x y then x :: y :: l' else y :: insert_by x l'
  end.

Definition sort_by (l : list A) : list A := foldr insert_by [] l.
End stable_sort.

(** Boolean-mask selection: [xs[mask]]. *)
Definition mask_select {A} (mask : list bool) (xs : list A) : list A :=
  (filter (λ p, p.1 = true) (zip mask xs)).*2.

(** Python string slices and indices counted from the end. *)
Definition slice_last (k : nat) (s : string) : string :=      (* s[-k:] *)
  String.substring (String.length s - k) k s.
Definition slice_but_last (k : nat) (s : string) : string :=  (* s[:-k] *)
  String.substring 0 (String.length s - k) s.
Definition item_from_end (k : nat) (s : string) : result string := (* s[-k] *)
  if bool_decide (k ≤ String.length s)%nat
  then match String.get (String.length s - k) s with
       | Some c => Ok (String c EmptyString)
       | None => Raise IndexError
       end
  else Raise IndexError.

(** [needle in hay] for strings. *)
Fixpoint str_in (needle hay : string) : bool :=
  String.prefix needle hay ||
  match hay with
  | EmptyString => false
  | String _ hay' => str_in needle hay'
  end.

(** Patterns of a [match] statement.  A [case] with several patterns
    separated by commas is a sequence pattern; the alternatives of an
    or-pattern would be separated by [|]. *)
Inductive pattern :=
  | PValue (v : string)
  | PSequence (vs : list string).

(** A value pattern compares with [==]; a sequence pattern never matches a
    subject of type [str]. *)
Definition matches (p : pattern) (subject : string) : bool :=
  match p with
  | PValue v => String.eqb subject v
  | PSequence _ => false
  end.

(** ** Tabular data *)

(** A cell of a 2DA table: text or a number. *)
Inductive value := Str (s : string) | Num (z : Z).

(** A frame: the row labels and, per column name, one cell per row.  A
    missing cell (NaN) of a frame of labels is [None]. *)
Record DataFrame (A : Type) := Frame {
  index : list Z;
  columns : list (string * list A)
}.
Arguments Frame {A} index columns.
Arguments index {A} d.
Arguments columns {A} d.

Definition names {A} (df : DataFrame A) : list string := (columns df).*1.

(** [df[column]] *)
Definition getcol {A} (df : DataFrame A) (column : string) : result (list A) :=
  match list_find (λ p, p.1 = column) (columns df) with
  | Some (_, (_, col)) => Ok col
  | None => Raise KeyError
  end.

(** The cell of a column at a row position: [df[column].iloc[k]]. *)
Definition cell {A} (df : DataFrame A) (column : string) (k : nat) : option A :=
  match getcol df column with
  | Ok col => col !! k
  | Raise _ => None
  end.

(** [df.empty] *)
Definition empty_frame {A} (df : DataFrame A) : bool :=
  bool_decide (index df = []) || bool_decide (names df = []).

(** [df[df.columns.intersection(other_columns)]] *)
Definition restrict {A} (df : DataFrame A) (keep : list string) : DataFrame A :=
  Frame (index df) (filter (λ p, p.1 ∈ keep) (columns df)).

(** The cell of [col] in the first row labelled [r]. *)
Fixpoint loc {A} (idx : list Z) (col : list (option A)) (r : Z) : option A :=
  match idx, col with
  | i :: idx', c :: col' => if bool_decide (i = r) then c else loc idx' col' r
  | _, _ => None
  end.

(** [DataFrame.update(other, overwrite=True)]: [other] is re-indexed to the
    rows of [self] (which pandas refuses when [other] repeats a label), and
    in every column that both frames have, the cells of [other] that are
    not missing replace those of [self]. *)
Definition update (self : DataFrame value) (other : DataFrame (option value))
    : result (DataFrame value) :=
  if bool_decide (NoDup (index other)) then
    Ok (Frame (index self)
          (map (λ '(name, this),
                  match getcol other name with
                  | Ok that =>
                      (name, zip_with (λ old r, default old (loc (index other) that r))
                               this (index self))
                  | Raise _ => (name, this)
                  end)
               (columns self)))
  else Raise ValueError.

(** ** Reading the label files *)

Module IOHelper.

Section read_labels.
(** The fields of a record other than "id". *)
Context {R : Type}.

(** [df.sort_index()]: the rows in ascending order of their labels; rows
    with the same label keep the order of the file. *)
Definition sort_index (df : list (Z * R)) : list (Z * R) :=
  sort_by (λ x y, bool_decide (x.1 ≤ y.1)) df.

(** [index.duplicated(keep='last')]: a label is marked when it occurs
    again further down. *)
Fixpoint duplicated_last (idx : list Z) : list bool :=
  match idx with
  | [] => []
  | i :: idx' => bool_decide (i ∈ idx') :: duplicated_last idx'
  end.


(** [index.duplicated()]: a label is marked when it occurred before. *)
Definition duplicated (idx : list Z) : list bool :=
  reverse (duplicated_last (reverse idx)).

(** [IOHelper.read_labels], from the frame on that [pd.read_json] made of
    the records of the file, with their "id" fields cast to integers.  The
    second component is the list of labels the warning prints, when it is
    printed. *)
Definition read_labels (df : list (Z * R)) (silent_warnings : bool)
    : list (Z * R) * option (list Z) :=
  let df := sort_index df in
  let idx := df.*1 in
  if negb silent_warnings && existsb (λ b, b) (duplicated idx)
  then (mask_select (negb <$> duplicated_last idx) df,
        Some (mask_select (duplicated idx) idx))
  else (df, None).
End read_labels.

End IOHelper.

(** ** The string table *)

Module TLK.

(** An offset that differentiates custom TLK entries from standard ones. *)
Definition OFFSET : Z := 16777216.

(** One element of [values['entries']]. *)
Record entry := Entry { id : Z; text : string }.

(** [self.values]: a dictionary with the keys 'language' and 'entries'. *)
Record Values := MkValues { language : Z; entries : list entry }.

Record t := Mk {
  values : Values;            (* self.values *)
  existing : gmap string Z;   (* self.existing: text -> cached id *)
  blanks : gset Z             (* self.blanks *)
}.

#[export] Instance entry_eq_dec : EqDecision entry.
Proof. solve_decision. Defined.

(** [TLK.__init__] *)
Definition init : t :=
  {| values := {| language := 0; entries := [] |};
     existing := ∅;
     blanks := ∅ |}.

(** [TLK.__len__] *)
Definition len (s : t) : Z := Z.of_nat (length (entries (values s))).

(** The ids of the entries, in table order. *)
Definition ids (s : t) : list Z := id <$> entries (values s).

(** [self.existing.values()] *)
Definition cached (m : gmap string Z) : list Z := (map_to_list m).*2.

(** [self.existing[text]] *)
Definition getitem (m : gmap string Z) (k : string) : result Z :=
  match m !! k with
  | Some v => Ok v
  | None => Raise KeyError
  end.

(** [TLK.__add_item__] *)
Definition add_item (id : Z) (text : string) (s : t) : t :=
  {| values := {| language := language (values s);
                  entries := entries (values s) ++ [Entry id text] |};
     existing := <[text := id + OFFSET]> (existing s);
     blanks := blanks s |}.

(** [TLK.add] *)
Definition add (pop : popper) (text : string) (s : t) : result (Z * t) :=
  match existing s !! text with
  | Some v => Ok (v, s)
  | None =>
      let '(id, s1) :=
        if bool_decide (blanks s ≠ ∅)
        then (pop (blanks s),
              {| values := values s; existing := existing s;
                 blanks := blanks s ∖ {[pop (blanks s)]} |})
        else (len s, s) in
      let s2 := add_item id text s1 in
      v ← getitem (existing s2) text;
      Ok (v, s2)
  end.

(** The guard of [add_id]: [max_value] as the Python code computes it. *)
Definition max_value (s : t) : result Z :=
  if bool_decide (0 < size (existing s))%nat
  then m ← py_max (cached (existing s)); Ok (m - OFFSET)
  else Ok 0.

(** [TLK.add_id] *)
Definition add_id (id : Z) (text : string) (s : t) : result (Z * t) :=
  max_value ← max_value s;
  if bool_decide (max_value ≠ 0) && bool_decide (id ≤ max_value)
  then Raise ValueError
  else
    let s1 := add_item id text s in
    let s2 := {| values := values s1; existing := existing s1;
                 blanks := blanks s1 ∪ range (max_value + 1) id |} in
    v ← getitem (existing s2) text;
    Ok (v, s2).

(** [TLK.to_tlk], up to the call of the external converter: the entries are
    sorted in place by id and [self.values] is what is written out. *)
Definition to_tlk (s : t) : Values * t :=
  let sorted := {| language := language (values s);
                   entries := sort_by (λ x y, bool_decide (id x ≤ id y))
                                      (entries (values s)) |} in
  (sorted, {| values := sorted; existing := existing s; blanks := blanks s |}).

(** [{entry['text']: entry['id'] for entry in entries}]: of two entries
    with the same text the later one stays. *)
Definition text_to_id (l : list entry) : gmap string Z :=
  foldl (λ m e, <[text e := id e]> m) ∅ l.

(** [TLK.from_json], from the parsed document on: [Values] already has
    exactly the two keys the format check asks for. *)
Definition from_json (v : Values) : result t :=
  let existing := text_to_id (entries v) in
  top ← py_max (cached existing);
  Ok {| values := v;
        existing := existing;
        blanks := list_to_set
                    (filter (λ i, i ∉ cached existing) (seqZ 0 top)) |}.

(** [Series.map(self.add, na_action='ignore')]: the cells of a column from
    top to bottom; a missing cell stays as it is. *)
Fixpoint series_map_add (pop : popper) (col : list (option string)) (s : t)
    : result (list (option Z) * t) :=
  match col with
  | [] => Ok ([], s)
  | None :: col' =>
      '(out, s') ← series_map_add pop col' s;
      Ok (None :: out, s')
  | Some text :: col' =>
      '(v, s1) ← add pop text s;
      '(out, s2) ← series_map_add pop col' s1;
      Ok (Some v :: out, s2)
  end.

(** The same over a list of named columns, one column after the other. *)
Fixpoint columns_map_add (pop : popper)
    (cols : list (string * list (option string))) (s : t)
    : result (list (string * list (option Z)) * t) :=
  match cols with
  | [] => Ok ([], s)
  | (name, col) :: cols' =>
      '(out, s1) ← series_map_add pop col s;
      '(outs, s2) ← columns_map_add pop cols' s1;
      Ok ((name, out) :: outs, s2)
  end.

(** [STATIC_COLUMNS] of [add_spell_labels] *)
Definition STATIC_COLUMNS (name_desc_offset : Z) : list string :=
  if bool_decide (0 < name_desc_offset) then ["Name"; "SpellDesc"] else [].

(** The columns of [df_ids], in the order of [enumerate(STATIC_COLUMNS)]
    starting at [i]: the id of a cell is computed from its row label and
    kept only where the label frame has a value. *)
Fixpoint static_ids (name_desc_offset : Z) (n : Z) (i : nat)
    (static : list string) (df_json : DataFrame (option string))
    : result (list (string * list (option Z))) :=
  match static with
  | [] => Ok []
  | column :: static' =>
      col ← getcol df_json column;
      rest ← static_ids name_desc_offset n (S i) static' df_json;
      Ok ((column,
           zip_with (λ r cell,
                       match cell with
                       | Some _ => Some (name_desc_offset + Z.of_nat i + n * r)
                       | None => None
                       end)
                    (index df_json) col) :: rest)
  end.

(** [df_ids] of [add_spell_labels] *)
Definition build_df_ids (name_desc_offset : Z) (static : list string)
    (df_json : DataFrame (option string)) : result (DataFrame (option Z)) :=
  cols ← static_ids name_desc_offset (Z.of_nat (length static)) 0
           static df_json;
  Ok (Frame (index df_json) cols).

(** What the generator of [add_spell_labels] yields a call of [add_id] for:
    the rows of [df_ids] from top to bottom, in each row the static columns
    in order, where the id is not missing. *)
Definition reservations (df_ids : DataFrame (option Z))
    : list (Z * string * Z) :=
  mjoin (imap (λ k r,
                 omap (λ '(column, col),
                         match col !! k with
                         | Some (Some id) => Some (r, column, id)
                         | _ => None
                         end)
                      (columns df_ids))
              (index df_ids)).

(** [df_json.at[r, column]]: the text of the only row labelled [r].  When
    several rows carry the label the lookup yields a series, which [add_id]
    cannot use as a key; the generator does not ask for a missing text. *)
Definition at_ (df_json : DataFrame (option string)) (r : Z) (column : string)
    : result string :=
  col ← getcol df_json column;
  match filter (λ p, p.1 = r) (zip (index df_json) col) with
  | [(_, Some text)] => Ok text
  | [] => Raise KeyError
  | _ => Raise TypeError
  end.

(** [all(self.add_id(...) for ...)]: the calls are made one after the other
    and [all] stops at the first result that is zero. *)
Fixpoint all_add_id (df_json : DataFrame (option string))
    (calls : list (Z * string * Z)) (s : t) : result t :=
  match calls with
  | [] => Ok s
  | (r, column, id) :: calls' =>
      text ← at_ df_json r column;
      '(v, s') ← add_id id text s;
      if bool_decide (v = 0) then Ok s' else all_add_id df_json calls' s'
  end.

(** [df_json[column] = df_json[column].map(self.add, na_action='ignore')]
    for the columns of [todo] in order: a column is read once, before it is
    overwritten, so the mapped columns are collected by name. *)
Fixpoint map_columns (pop : popper) (todo : list string)
    (df_json : DataFrame (option string)) (s : t)
    : result (list (string * list (option Z)) * t) :=
  match todo with
  | [] => Ok ([], s)
  | column :: todo' =>
      col ← getcol df_json column;
      '(out, s1) ← series_map_add pop col s;
      '(outs, s2) ← map_columns pop todo' df_json s1;
      Ok ((column, out) :: outs, s2)
  end.

(** A column of ids as a column of table cells. *)
Definition refs (out : list (option Z)) : list (option value) :=
  (λ cell : option Z, Num <$> cell) <$> out.

(** The label frame after the loop: the mapped columns hold ids, the
    others still hold their texts. *)
Definition overwrite_columns (df_json : DataFrame (option string))
    (mapped : list (string * list (option Z))) : DataFrame (option value) :=
  Frame (index df_json)
    (map (λ '(name, col),
            match list_find (λ p, p.1 = name) mapped with
            | Some (_, (_, out)) => (name, refs out)
            | None => (name, (λ cell : option string, Str <$> cell) <$> col)
            end)
         (columns df_json)).

(** [TLK.add_spell_labels] *)
Definition add_spell_labels (pop : popper) (df_2da : DataFrame value)
    (df_json : DataFrame (option string)) (name_desc_offset : Z) (s : t)
    : result (DataFrame value * t) :=
  let static := STATIC_COLUMNS name_desc_offset in
  (* df_json.columns.difference(STATIC_COLUMNS) comes sorted *)
  let todo := sort_by String.leb
                (filter (λ c, c ∉ static) (names df_json)) in
  '(mapped, s1) ← map_columns pop todo df_json s;
  df_2da ← update df_2da (overwrite_columns df_json mapped);
  if bool_decide (static = []) then Ok (df_2da, s1)
  else
    df_ids ← build_df_ids name_desc_offset static df_json;
    s2 ← all_add_id df_json (reservations df_ids) s1;
    df_2da ← update df_2da
               (Frame (index df_ids)
                  (prod_map (λ c, c) (λ col : list (option Z),
                                        refs ((λ cell : option Z,
                                                 (λ i, i + OFFSET) <$> cell)
                                              <$> col))
                     <$> columns df_ids));
    Ok (df_2da, s2).

(** [TLK.add_2da_labels], from the two frames on: [df_json] is the label
    frame as [add_missing_labels] returned it. *)
Definition add_2da_labels (pop : popper) (name : string)
    (spell_name_desc_offset : Z) (df_2da : DataFrame value)
    (df_json : DataFrame (option string)) (s : t)
    : result (DataFrame value * t) :=
  let df_json := restrict df_json (names df_2da) in
  if empty_frame df_json then Ok (df_2da, s)
  else if bool_decide (name = "spells")
  then add_spell_labels pop df_2da df_json spell_name_desc_offset s
  else
    '(cols, s') ← columns_map_add pop (columns df_json) s;
    df_2da ← update df_2da
               (Frame (index df_json) (prod_map (λ c, c) refs <$> cols));
    Ok (df_2da, s').

(** [TLK.__dynamic_plural__] *)
Definition dynamic_plural (text : string) : result string :=
  let suffix := slice_last 2 text in
  if matches (PSequence ["ch"; "is"; "sh"]) suffix then Ok (text +:+ "es")
  else if matches (PValue "fe") suffix then Ok (slice_but_last 2 text +:+ "ves")
  else if matches (PValue "lf") suffix then Ok (slice_but_last 1 text +:+ "ves")
  else
    last ← item_from_end 1 text;
    if matches (PSequence ["s"; "x"; "z"; "o"]) last then Ok (text +:+ "es")
    else if matches (PValue "f") last then Ok (slice_but_last 1 text +:+ "ves")
    else if matches (PValue "y") last then
      before ← item_from_end 2 text;
      if negb (str_in before "aeiou")
      then Ok (slice_but_last 1 text +:+ "ies")
      else Ok (text +:+ "s")
    else Ok (text +:+ "s").

(** [TLK.__dynamic_adjective] *)
Definition dynamic_adjective (text : string) : result string :=
  last ← item_from_end 1 text;
  if matches (PValue "f") last then Ok (slice_but_last 1 text +:+ "ven")
  else Ok text.

(** ** Sequences of calls *)

(** A call of [add] or of [add_id]. *)
Inductive op :=
  | Add (pop : popper) (text : string)
  | AddId (id : Z) (text : string).

Definition op_text (o : op) : string :=
  match o with Add _ text => text | AddId _ text => text end.

Definition step (o : op) (s : t) : result t :=
  match o with
  | Add pop text => '(_, s') ← add pop text s; Ok s'
  | AddId id text => '(_, s') ← add_id id text s; Ok s'
  end.

(** The calls of a sequence one after the other; an exception ends it. *)
Fixpoint run (ops : list op) (s : t) : result t :=
  match ops with
  | [] => Ok s
  | o :: ops' => s' ← step o s; run ops' s'
  end.

(** Every id from 0 up to the largest id of an entry belongs to exactly one
    entry and is no blank, or belongs to no entry and is a blank. *)
Definition occupancy (s : t) : Prop :=
  ∀ top i, py_max (ids s) = Ok top → 0 ≤ i ≤ top →
    (length (filter (λ e, id e = i) (entries (values s))) = 1%nat
     ∧ (i ∉ blanks s))
    ∨ ((i ∉ ids s) ∧ (i ∈ blanks s)).

(** The label that a label frame holds for the row labelled [r] in the
    column [column], if it holds one. *)
Definition override (df_json : DataFrame (option string)) (r : Z)
    (column : string) : option string :=
  match getcol df_json column with
  | Ok col => loc (index df_json) col r
  | Raise _ => None
  end.

(** ** Tables and runs that the statements refer to *)

(** Calls of [add] only, each with its own choice of blank. *)
Definition adds (calls : list (popper * string)) : list op :=
  (λ c, Add c.1 c.2) <$> calls.

(** The table after [add_id(5, "x")] on an empty table. *)
Definition reserved5 : t :=
  Mk (MkValues 0 [Entry 5 "x"]) {["x" := 5 + OFFSET]} {[1; 2; 3; 4]}.

(** The document of the round trip example. *)
Definition document : Values := MkValues 0 [Entry 0 "A"; Entry 2 "B"].

(** The table that [from_json] makes of it. *)
Definition hydrated : t :=
  Mk document {["A" := 0; "B" := 2]} {[1]}.

(** The table of the example as [add("A")] and [add_id(2, "B")] leave
    it, with the two entries swapped. *)
Definition swapped : t :=
  Mk (MkValues 0 [Entry 2 "B"; Entry 0 "A"])
     {["A" := 0 + OFFSET; "B" := 2 + OFFSET]} {[1]}.

(** The label that belongs to the cell of the table in the column [column]
    at the row position [k], if the label frame has one. *)
Definition label_for (df_2da : DataFrame value)
    (df_json : DataFrame (option string)) (column : string) (k : nat)
    : option string :=
  r ← index df_2da !! k; override df_json r column.

(** A text that some cell of the label frame holds. *)
Definition is_label (df_json : DataFrame (option string)) (text : string)
    : Prop :=
  ∃ column col, (column, col) ∈ columns df_json ∧ Some text ∈ col.


(** A table cell that holds the id that the table [s] caches for [text]. *)
Definition cached_ref (s : t) (text : string) (v : value) : Prop :=
  ∃ z, v = Num z ∧ existing s !! text = Some z.

(** A column [that] of values for [update] mirrors a column [col] of
    labels: it is missing where the label is missing, and where there is a
    label it holds a value that [P] relates to the label. *)
Definition mirrors (P : string → value → Prop) (col : list (option string))
    (that : list (option value)) : Prop :=
  Forall2 (λ label cell,
             match label with
             | Some text => ∃ v, cell = Some v ∧ P text v
             | None => cell = None
             end) col that.

(** A feat table with two rows and labels that name the first row only. *)
Definition feat_2da : DataFrame value :=
  Frame [0; 1] [("LABEL", [Str "Alertness"; Str "Ambidex"]);
                ("FEAT", [Str "****"; Str "****"]);
                ("DESCRIPTION", [Num 12; Str "****"])].

Definition feat_labels : DataFrame (option string) :=
  Frame [0; 1] [("FEAT", [Some "Alertness"; None]);
                ("DESCRIPTION", [None; None]);
                ("Comment", [Some "not a column of the table"; None])].

(** What the merge of these labels into the feat table returns, starting
    from an empty string table. *)
Definition feat_merged : DataFrame value :=
  Frame [0; 1] [("LABEL", [Str "Alertness"; Str "Ambidex"]);
                ("FEAT", [Num (0 + OFFSET); Str "****"]);
                ("DESCRIPTION", [Num 12; Str "****"])].

Definition feat_table : t :=
  Mk (MkValues 0 [Entry 0 "Alertness"]) {["Alertness" := 0 + OFFSET]} ∅.

(** Labels for the rows 0 and 1 of spells.2da; the second frame lacks the
    description of row 1. *)
Definition spell_labels : DataFrame (option string) :=
  Frame [0; 1] [("Name", [Some "Fireball"; Some "Frost"]);
                ("SpellDesc", [Some "Burns."; Some "Chills."])].

Definition spell_labels_partial : DataFrame (option string) :=
  Frame [0; 1] [("Name", [Some "Fireball"; Some "Frost"]);
                ("SpellDesc", [Some "Burns."; None])].

(** A spells table with two rows. *)
Definition spells_2da : DataFrame value :=
  Frame [0; 1] [("Label", [Str "Fireball"; Str "Frost"]);
                ("Name", [Str "****"; Str "****"]);
                ("SpellDesc", [Str "****"; Num 77]);
                ("AltMessage", [Str "****"; Str "****"])].

Definition spell_labels_alt : DataFrame (option string) :=
  Frame [0; 1] [("Name", [Some "Fireball"; Some "Frost"]);
                ("SpellDesc", [Some "Burns."; None]);
                ("AltMessage", [None; Some "brr"])].

(** ** Properties of tables that a run leaves *)

(** What [add] keeps when the table has no blanks and its ids are the
    positions of its entries. *)
Definition dense s : Prop :=
  blanks s = ∅
  ∧ ids s = seqZ 0 (len s)
  ∧ ∀ e, e ∈ entries (values s) → existing s !! text e = Some (id e + OFFSET).

(** Every entry's text is a key of the cache. *)
Definition texts_cached s : Prop :=
  ∀ e, e ∈ entries (values s) → is_Some (existing s !! text e).

(** The largest cached id [m] bounds the ids of the entries and the
    blanks, and no blank is the id of an entry. *)
Definition bounded s (m : Z) : Prop :=
  max_value s = Ok m
  ∧ 0 ≤ m
  ∧ (∀ i, i ∈ ids s → 0 ≤ i ≤ m)
  ∧ (∀ b, b ∈ blanks s → 0 < b < m ∧ b ∉ ids s).

(** A call that reserves an id reserves one that is not negative. *)
Definition nonneg (o : op) : Prop :=
  match o with AddId i _ => 0 ≤ i | Add _ _ => True end.

(** The letters of ['aeiou']. *)
Definition vowels : list Ascii.ascii :=
  String.list_ascii_of_string "aeiou".

(** Every text of the cache is the text of an entry. *)
Definition cache_sound (s : t) : Prop :=
  ∀ text v, existing s !! text = Some v →
    ∃ e, e ∈ entries (values s) ∧ TLK.text e = text.

(** A table without gaps or shared ids: it is empty, or the ids of its
    entries are distinct and, together with the blanks, which are the id
    of no entry, make up the integers from 0 to [max_value]. *)
Definition tight (s : t) : Prop :=
  (entries (values s) = [] ∧ existing s = ∅ ∧ blanks s = ∅)
  ∨ ∃ top, max_value s = Ok top
      ∧ entries (values s) ≠ []
      ∧ NoDup (ids s)
      ∧ (∀ i, 0 ≤ i ≤ top ↔ i ∈ ids s ∨ i ∈ blanks s)
      ∧ (∀ i, i ∈ blanks s → i ∉ ids s).

(** A reservation that keeps to the rule: on an empty table it reserves
    the id 0, otherwise an id above [max_value]. *)
Definition above (o : op) (s : t) : Prop :=
  match o with
  | Add _ _ => True
  | AddId i _ =>
      if decide (entries (values s) = []) then i = 0
      else ∃ m, max_value s = Ok m ∧ m < i
  end.

(** A sequence of calls all of whose reservations keep to the rule. *)
Fixpoint guarded (ops : list op) (s : t) : Prop :=
  match ops with
  | [] => True
  | o :: ops' => above o s ∧ ∀ s', step o s = Ok s' → guarded ops' s'
  end.
End TLK.

(** * Properties *)

Import TLK.

(** ** Allocation in the string table *)

Section allocation.
Implicit Types (s : t) (text : string) (pop : popper).

Lemma getitem_insert (m : gmap string Z) text v :
  getitem (<[text := v]> m) text = Ok v.
Proof. unfold getitem. by rewrite lookup_insert_eq. Qed.

(** A text that is cached is answered from the cache. *)
Lemma add_cached pop text s v :
  existing s !! text = Some v → add pop text s = Ok (v, s).
Proof. intros E. unfold add. by rewrite E. Qed.

(** A new text takes a blank when there is one, *)
Lemma add_fresh_pop pop text s :
  existing s !! text = None → blanks s ≠ ∅ →
  add pop text s =
    Ok (pop (blanks s) + OFFSET,
        Mk (MkValues (language (values s))
              (entries (values s) ++ [Entry (pop (blanks s)) text]))
           (<[text := pop (blanks s) + OFFSET]> (existing s))
           (blanks s ∖ {[pop (blanks s)]})).
Proof.
  intros E B. unfold add. rewrite E, bool_decide_eq_true_2 by done.
  unfold add_item; simpl. by rewrite getitem_insert.
Qed.

(** and the number of entries otherwise. *)
Lemma add_fresh_len pop text s :
  existing s !! text = None → blanks s = ∅ →
  add pop text s =
    Ok (len s + OFFSET,
        Mk (MkValues (language (values s))
              (entries (values s) ++ [Entry (len s) text]))
           (<[text := len s + OFFSET]> (existing s))
           (blanks s)).
Proof.
  intros E B. unfold add. rewrite E, bool_decide_eq_false_2 by (by intros ?).
  unfold add_item; simpl. by rewrite getitem_insert.
Qed.

(** [add] never raises; it caches the text under the id it returns, keeps
    every other cached id and appends at most one entry. *)
Lemma add_total pop text s :
  ∃ v s', add pop text s = Ok (v, s')
    ∧ existing s' !! text = Some v
    ∧ (∀ text' v', existing s !! text' = Some v' →
                   existing s' !! text' = Some v')
    ∧ (is_Some (existing s !! text) → s' = s)
    ∧ (existing s !! text = None →
         dom (existing s') = {[text]} ∪ dom (existing s)
         ∧ len s' = len s + 1).
Proof.
  destruct (existing s !! text) as [v|] eqn:E.
  - exists v, s. rewrite (add_cached _ _ _ _ E).
    split_and!; try done; congruence.
  - assert (∀ i bl, ∃ v s',
      Ok (i + OFFSET,
          Mk (MkValues (language (values s))
                (entries (values s) ++ [Entry i text]))
             (<[text := i + OFFSET]> (existing s)) bl) = Ok (v, s')
      ∧ existing s' !! text = Some v
      ∧ (∀ text' v', existing s !! text' = Some v' →
                     existing s' !! text' = Some v')
      ∧ (is_Some (@None Z) → s' = s)
      ∧ (@None Z = None →
           dom (existing s') = {[text]} ∪ dom (existing s)
           ∧ len s' = len s + 1)) as H.
    { intros i bl. eexists _, _. split; [done|]. simpl. split_and!.
      - by rewrite lookup_insert_eq.
      - intros text' v' E'. rewrite lookup_insert_ne; [done|].
        intros ->. congruence.
      - by intros [? ?].
      - intros _. split; [by rewrite dom_insert_L|].
        unfold len; simpl. rewrite length_app; simpl. lia. }
    destruct (decide (blanks s = ∅)) as [B|B].
    + rewrite (add_fresh_len _ _ _ E B). apply H.
    + rewrite (add_fresh_pop _ _ _ E B). apply H.
Qed.
Lemma bind_Ok {A B} (m : result A) (f : A → result B) b :
  (x ← m; f x) = Ok b → ∃ a, m = Ok a ∧ f a = Ok b.
Proof. destruct m; simpl; [eauto|done]. Qed.

Lemma run_app ops1 ops2 s s1 :
  run ops1 s = Ok s1 → run (ops1 ++ ops2) s = run ops2 s1.
Proof.
  induction ops1 as [|o ops1 IH] in s |- *; simpl.
  - by intros [= ->].
  - intros (s0 & -> & H)%bind_Ok. simpl. by apply IH.
Qed.

End allocation.

Section idempotence.
Implicit Types (s : t) (text : string) (pop : popper).

(** A run of [add]s appends one entry for each distinct text that was
    not cached before, and none for the others. *)
Lemma run_adds_len calls s :
  ∃ s', run (adds calls) s = Ok s'
    ∧ len s' = len s + Z.of_nat (size ((list_to_set calls.*2 : gset string)
                                        ∖ dom (existing s))).
Proof.
  induction calls as [|[pop text] calls IH] in s |- *.
  - exists s. split; [done|]. simpl.
    rewrite empty_difference_L, size_empty. lia.
  - destruct (add_total pop text s) as (v & s1 & E & _ & _ & Hsome & Hnone).
    destruct (IH s1) as (s' & R & L).
    exists s'. split.
    { simpl. rewrite E. simpl. apply R. }
    rewrite L, fmap_cons, list_to_set_cons. cbn [snd].
    destruct (existing s !! text) as [w|] eqn:Ex.
    + rewrite Hsome by eauto. do 3 f_equal.
      rewrite difference_union_distr_l_L.
      assert (({[text]} : gset string) ∖ dom (existing s) = ∅) as ->
        by (apply subseteq_empty_difference_L, singleton_subseteq_l,
                  elem_of_dom; eauto).
      by rewrite (left_id_L ∅ (∪)).
    + destruct Hnone as [D Ln]; [done|]. rewrite Ln, D.
      rewrite difference_union_distr_l_L.
      assert (({[text]} : gset string) ∖ dom (existing s) = {[text]}) as ->
        by (by apply difference_disjoint_L, disjoint_singleton_l,
                     not_elem_of_dom).
      rewrite (size_union_alt {[text]}), size_singleton.
      rewrite difference_difference_l_L.
      rewrite (comm_L (∪) (dom (existing s))). lia.
Qed.

(** C4. Calling [add] twice with the same text returns the same id both
    times and the second call leaves the table as the first left it; one
    call appends no entry when the text is cached and one entry when it is
    not; a run of calls of [add] appends at most one entry per distinct
    text. *)
Theorem add_idempotent pop1 pop2 text s :
  ∃ v s1,
    add pop1 text s = Ok (v, s1)
    ∧ add pop2 text s1 = Ok (v, s1)
    ∧ len s1 = len s + match existing s !! text with
                       | Some _ => 0
                       | None => 1
                       end
    ∧ ∀ calls, ∃ s', run (adds calls) s = Ok s'
        ∧ len s ≤ len s'
           ≤ len s + Z.of_nat (size (list_to_set calls.*2 : gset string)).
Proof.
  destruct (add_total pop1 text s) as (v & s1 & E & Hv & _ & Hsome & Hnone).
  exists v, s1. split_and!.
  - done.
  - by apply add_cached.
  - destruct (existing s !! text) as [w|].
    + rewrite Hsome by eauto. lia.
    + by destruct Hnone.
  - intros calls. destruct (run_adds_len calls s) as (s' & R & L).
    exists s'. split; [done|]. rewrite L.
    assert (size ((list_to_set calls.*2 : gset string) ∖ dom (existing s))
            ≤ size (list_to_set calls.*2 : gset string))%nat
      by (by apply subseteq_size, subseteq_difference_l).
    lia.
Qed.
End idempotence.

(** ** Reserved ids *)

Section reservation.
Implicit Types (s : t) (text : string) (pop : popper).

Lemma add_id_5_init : add_id 5 "x" init = Ok (5 + OFFSET, reserved5).
Proof. reflexivity. Qed.

(** A new text takes one of the blanks while there are some. *)
Lemma add_takes_blank pop text s n :
  existing s !! text = None → size (blanks s) = S n →
  ∃ i s', add pop text s = Ok (i + OFFSET, s')
    ∧ i ∈ blanks s
    ∧ size (blanks s') = n
    ∧ blanks s' ⊆ blanks s
    ∧ ids s' = ids s ++ [i]
    ∧ existing s' = <[text := i + OFFSET]> (existing s).
Proof.
  intros E Hn.
  assert (blanks s ≠ ∅) as B.
  { intros B. rewrite B, size_empty in Hn. lia. }
  pose proof (pop_elem pop _ B) as Hin.
  eexists _, _. split; [by apply add_fresh_pop|]. simpl. split_and!.
  - done.
  - rewrite size_difference by (by apply singleton_subseteq_l).
    rewrite size_singleton, Hn. lia.
  - apply subseteq_difference_l. done.
  - unfold ids; simpl. by rewrite fmap_app.
  - done.
Qed.

(** C1. The occupancy invariant does not survive a reservation on an empty
    table: after [add_id(5, "x")] the largest id is 5, yet 0 is neither the
    id of an entry nor a blank; and after five more calls of [add] with new
    texts, whatever blanks they take, the last call has been given the id
    5 again, so that the first and the last entry share it. *)
Theorem occupancy_broken_by_add_id_on_empty :
  (∃ s, run [AddId 5 "x"] init = Ok s
     ∧ py_max (ids s) = Ok 5
     ∧ (0 ∉ ids s) ∧ (0 ∉ blanks s)
     ∧ ¬ occupancy s)
  ∧ ∀ p1 p2 p3 p4 p5, ∃ s,
      run [AddId 5 "x"; Add p1 "a"; Add p2 "b"; Add p3 "c"; Add p4 "d";
           Add p5 "e"] init = Ok s
      ∧ ids s !! 0%nat = Some 5 ∧ ids s !! 5%nat = Some 5
      ∧ ¬ NoDup (ids s).
Proof.
  split.
  - exists reserved5. split; [reflexivity|]. split; [reflexivity|].
    assert (0 ∉ ids reserved5) as H1 by (by intros ?%list_elem_of_singleton).
    assert (0 ∉ blanks reserved5) as H2 by (vm_compute; by intros ?).
    split_and!; [done..|].
    intros Hocc. destruct (Hocc 5 0) as [[Hlen _]|[_ Hin]];
      [reflexivity|lia|discriminate Hlen|done].
  - intros p1 p2 p3 p4 p5. simpl. rewrite add_id_5_init. simpl.
    destruct (add_takes_blank p1 "a" reserved5 3)
      as (i1 & s1 & E1 & _ & N1 & _ & I1 & X1); [done..|].
    rewrite E1; simpl.
    destruct (add_takes_blank p2 "b" s1 2)
      as (i2 & s2 & E2 & _ & N2 & _ & I2 & X2);
      [by rewrite X1|done|].
    rewrite E2; simpl.
    destruct (add_takes_blank p3 "c" s2 1)
      as (i3 & s3 & E3 & _ & N3 & _ & I3 & X3);
      [by rewrite X2, X1|done|].
    rewrite E3; simpl.
    destruct (add_takes_blank p4 "d" s3 0)
      as (i4 & s4 & E4 & _ & N4 & _ & I4 & X4);
      [by rewrite X3, X2, X1|done|].
    rewrite E4; simpl.
    apply size_empty_inv, leibniz_equiv in N4.
    assert (len s4 = 5) as L4.
    { unfold len. rewrite <- (length_fmap id). fold (ids s4).
      by rewrite I4, I3, I2, I1. }
    rewrite (add_fresh_len p5 "e" s4), L4;
      [|by rewrite X4, X3, X2, X1|done].
    eexists. split; [done|].
    unfold ids at 1 2 3; simpl. rewrite fmap_app. fold (ids s4).
    rewrite I4, I3, I2, I1. simpl. split_and!; [done..|].
    intros Hnd. apply NoDup_cons in Hnd as [Hnotin _]. apply Hnotin.
    do 4 right. left.
Qed.

(** C2. An id that does not exceed the current maximum is accepted when
    that maximum is 0: after [add("a")] the only entry has the id 0 and
    [max_value] is 0, [add_id(0, "b")] does not raise and a second entry
    with the id 0 is appended.  The two runs of the claim behave as it
    says: after [add_id(3, "a")], [add_id(2, "b")] raises, and
    [add_id(7, "b")] returns and adds 4, 5 and 6 to the blanks. *)
Theorem add_id_accepts_id_at_maximum_zero pop :
  (∃ s1 s2,
     add pop "a" init = Ok (0 + OFFSET, s1)
     ∧ max_value s1 = Ok 0
     ∧ add_id 0 "b" s1 = Ok (0 + OFFSET, s2)
     ∧ entries (values s2) = [Entry 0 "a"; Entry 0 "b"])
  ∧ (∃ s1 s2,
       add_id 3 "a" init = Ok (3 + OFFSET, s1)
       ∧ add_id 2 "b" s1 = Raise ValueError
       ∧ add_id 7 "b" s1 = Ok (7 + OFFSET, s2)
       ∧ blanks s2 = blanks s1 ∪ {[4; 5; 6]}
       ∧ blanks s1 ## {[4; 5; 6]}).
Proof.
  split.
  - rewrite (add_fresh_len pop "a" init) by done.
    eexists _, _. split; [reflexivity|]. split; [reflexivity|].
    split; reflexivity.
  - exists (Mk (MkValues 0 [Entry 3 "a"]) {["a" := 3 + OFFSET]} {[1; 2]}).
    eexists. split; [reflexivity|]. split; [reflexivity|].
    split; [reflexivity|]. split; [reflexivity|]. simpl.
    intros x. rewrite !elem_of_union, !elem_of_singleton. lia.
Qed.

(** C3. [add_id(5, "x")] on an empty table puts 1, 2, 3 and 4 into the
    blanks, and not 0; the next [add] of a new text, whatever blank it
    takes, returns one of 1, 2, 3 and 4 (shifted by [OFFSET]). *)
Theorem add_id_on_empty_leaves_out_zero :
  ∃ s, add_id 5 "x" init = Ok (5 + OFFSET, s)
    ∧ blanks s = {[1; 2; 3; 4]}
    ∧ blanks s ≠ {[0; 1; 2; 3; 4]}
    ∧ (0 ∉ blanks s)
    ∧ ∀ pop text, text ≠ "x" →
        ∃ i s', add pop text s = Ok (i + OFFSET, s') ∧ 1 ≤ i ≤ 4.
Proof.
  exists reserved5. split; [reflexivity|]. split; [reflexivity|].
  split; [done|]. split; [vm_compute; by intros ?|].
  intros pop text Hne.
  destruct (add_takes_blank pop text reserved5 3)
    as (i & s' & E & Hin & _); [by apply lookup_singleton_ne|done|].
  exists i, s'. split; [done|]. simpl in Hin.
  rewrite !elem_of_union, !elem_of_singleton in Hin. lia.
Qed.
End reservation.

(** ** The stable sort *)

Section stable_sort_facts.
Context {A : Type} (le : A → A → bool).

Lemma insert_by_perm x l : insert_by le x l ≡ₚ x :: l.
Proof.
  induction l as [|y l IH]; simpl; [done|].
  destruct (le x y); [done|]. rewrite IH. apply perm_swap.
Qed.

Lemma sort_by_perm l : sort_by le l ≡ₚ l.
Proof.
  induction l as [|x l IH]; simpl; [done|].
  by rewrite insert_by_perm, IH.
Qed.

(** An element that is inserted only passes elements it may not stay in
    front of: a selection that never holds both of such a pair does not
    see the difference. *)
Lemma insert_by_filter (P : A → Prop) `{!∀ x, Decision (P x)} x l :
  (∀ y, P x → P y → le x y = true) →
  filter P (insert_by le x l) = filter P (x :: l).
Proof.
  intros Hle. induction l as [|y l IH]; simpl; [done|].
  destruct (le x y) eqn:E; [done|].
  rewrite filter_cons, IH, !filter_cons.
  destruct (decide (P y)), (decide (P x)); try done.
  rewrite Hle in E; done.
Qed.

Lemma sort_by_filter (P : A → Prop) `{!∀ x, Decision (P x)} l :
  (∀ x y, P x → P y → le x y = true) →
  filter P (sort_by le l) = filter P l.
Proof.
  intros Hle. induction l as [|x l IH]; simpl; [done|].
  rewrite insert_by_filter by eauto. by rewrite !filter_cons, IH.
Qed.

Lemma insert_by_sorted (R : relation A) `{!Transitive R} x l :
  (∀ y z, le y z = true → R y z) →
  (∀ y z, le y z = false → R z y) →
  StronglySorted R l → StronglySorted R (insert_by le x l).
Proof.
  intros Ht Hf. induction 1 as [|y l Hs IH Hall]; simpl.
  - repeat constructor.
  - destruct (le x y) eqn:E.
    + constructor; [by constructor|]. constructor; [by apply Ht|].
      eapply Forall_impl; [done|]. intros z ?. etrans; [|done]. by apply Ht.
    + constructor; [done|]. rewrite insert_by_perm.
      constructor; [by apply Hf|done].
Qed.

Lemma sort_by_sorted (R : relation A) `{!Transitive R} l :
  (∀ y z, le y z = true → R y z) →
  (∀ y z, le y z = false → R z y) →
  StronglySorted R (sort_by le l).
Proof.
  intros Ht Hf. induction l as [|x l IH]; simpl; [constructor|].
  by apply insert_by_sorted.
Qed.
End stable_sort_facts.

(** ** Tables read back from a serialized table *)

Section hydration.
Implicit Types (s : t) (pop : popper) (l : list entry).

Lemma from_json_document : from_json document = Ok hydrated.
Proof. reflexivity. Qed.

(** In a table that was built by calls of [add] and [add_id] only, every
    cached id is the id of an entry with that text plus [OFFSET]. *)
Lemma step_cache_shifted o s s' :
  (∀ text v, existing s !! text = Some v →
             Entry (v - OFFSET) text ∈ entries (values s)) →
  step o s = Ok s' →
  ∀ text v, existing s' !! text = Some v →
            Entry (v - OFFSET) text ∈ entries (values s').
Proof.
  intros Hinv Hstep.
  assert (∀ i text0 text v,
    <[text0 := i + OFFSET]> (existing s) !! text = Some v →
    Entry (v - OFFSET) text ∈ entries (values s) ++ [Entry i text0]) as Hins.
  { intros i text0 text v. rewrite lookup_insert.
    destruct (decide (text0 = text)) as [->|].
    - intros [= <-]. apply elem_of_app. right.
      replace (i + OFFSET - OFFSET) with i by lia. left.
    - intros Hv. apply elem_of_app. left. by apply Hinv. }
  destruct o as [pop text0|i text0]; simpl in Hstep.
  - destruct (add pop text0 s) as [[v0 s0]|] eqn:Hadd; [|done].
    injection Hstep as ->.
    destruct (existing s !! text0) as [w|] eqn:E.
    + rewrite (add_cached _ _ _ _ E) in Hadd. by injection Hadd as _ <-.
    + destruct (decide (blanks s = ∅)) as [B|B].
      * rewrite (add_fresh_len _ _ _ E B) in Hadd. injection Hadd as _ <-.
        simpl. by apply Hins.
      * rewrite (add_fresh_pop _ _ _ E B) in Hadd. injection Hadd as _ <-.
        simpl. by apply Hins.
  - destruct (add_id i text0 s) as [[v0 s0]|] eqn:Hadd; [|done].
    injection Hstep as ->. unfold add_id in Hadd.
    destruct (max_value s) as [m|]; [simpl in Hadd|done].
    destruct (_ && _); [done|].
    rewrite getitem_insert in Hadd. injection Hadd as _ <-.
    simpl. by apply Hins.
Qed.

Lemma run_cache_shifted ops s :
  run ops init = Ok s →
  ∀ text v, existing s !! text = Some v →
            Entry (v - OFFSET) text ∈ entries (values s).
Proof.
  cut (∀ s0, (∀ text v, existing s0 !! text = Some v →
                        Entry (v - OFFSET) text ∈ entries (values s0)) →
             run ops s0 = Ok s →
             ∀ text v, existing s !! text = Some v →
                       Entry (v - OFFSET) text ∈ entries (values s)).
  { intros H. apply H. intros text v. simpl. by rewrite lookup_empty. }
  induction ops as [|o ops IH]; intros s0 Hinv; simpl.
  - by intros [= <-].
  - destruct (step o s0) as [s1|] eqn:Hstep; [simpl|done].
    apply IH. by eapply step_cache_shifted.
Qed.

(** C6. In a table that was built from the empty table by calls of [add]
    and [add_id], the id that [add] returns is the id of an entry with the
    text plus [OFFSET].  In a table read by [from_json] the cache holds the
    ids as they are in the document: [add("A")] on the table read from the
    entries 0:"A" and 2:"B" returns 0, the id of the entry itself, and not
    that id plus [OFFSET]; a text added afterwards does get its id plus
    [OFFSET]. *)
Theorem add_on_hydrated_returns_unshifted_id pop :
  (∀ ops s text, run ops init = Ok s →
     ∃ v s', add pop text s = Ok (v, s')
       ∧ Entry (v - OFFSET) text ∈ entries (values s'))
  ∧ ∃ s, from_json document = Ok s
      ∧ Entry 0 "A" ∈ entries (values s)
      ∧ add pop "A" s = Ok (0, s)
      ∧ 0 ≠ 0 + OFFSET
      ∧ ∃ s', add pop "C" s = Ok (1 + OFFSET, s')
          ∧ Entry 1 "C" ∈ entries (values s').
Proof.
  split.
  { intros ops s text Hrun.
    destruct (add_total pop text s) as (v & s' & Hadd & Hv & _).
    exists v, s'. split; [done|].
    apply (run_cache_shifted (ops ++ [Add pop text])); [|done].
    rewrite (run_app _ _ _ _ Hrun). simpl. by rewrite Hadd. }
  exists hydrated. split; [reflexivity|]. split; [left|].
  split; [reflexivity|]. split; [done|].
  assert (blanks hydrated ≠ ∅) as B by done.
  assert (pop (blanks hydrated) = 1) as P.
  { apply (pop_elem pop) in B. simpl in B. by apply elem_of_singleton in B. }
  rewrite (add_fresh_pop pop "C" hydrated) by done. rewrite P.
  eexists. split; [reflexivity|]. simpl. do 2 right. left.
Qed.

(** [max] returns an element that no other element exceeds. *)
Lemma py_max_spec (xs : list Z) m :
  py_max xs = Ok m ↔ m ∈ xs ∧ Forall (λ x, x ≤ m) xs.
Proof.
  destruct xs as [|x xs]; simpl.
  { split; [done|]. by intros [?%elem_of_nil _]. }
  assert (∀ a, foldl Z.max a xs ∈ a :: xs
               ∧ Forall (λ y, y ≤ foldl Z.max a xs) (a :: xs)) as H.
  { induction xs as [|y ys IH]; intros a; simpl.
    - split; [left|]. repeat constructor. lia.
    - destruct (IH (a `max` y)) as [Hin Hall].
      apply Forall_cons in Hall as [Ha Hall]. split.
      + apply elem_of_cons in Hin as [->|Hin]; [|by do 2 right].
        destruct (Z.max_spec a y) as [[_ ->]|[_ ->]]; [right|]; left.
      + repeat constructor; [lia|lia|done]. }
  destruct (H x) as [Hin Hall]. split.
  - by intros [= <-].
  - intros [Hm Hle]. f_equal. rewrite Forall_forall in Hall, Hle.
    specialize (Hall _ Hm). specialize (Hle _ Hin). lia.
Qed.

Lemma py_max_perm (xs ys : list Z) : xs ≡ₚ ys → py_max xs = py_max ys.
Proof.
  intros Hp. destruct (py_max xs) as [m|e] eqn:E.
  - symmetry. apply py_max_spec. apply py_max_spec in E as [? ?].
    by rewrite <- Hp.
  - destruct xs; [|done]. apply Permutation_nil_l in Hp. by subst ys.
Qed.

Lemma py_max_nil_inv (xs : list Z) e : py_max xs = Raise e → xs = [].
Proof. by destruct xs. Qed.

(** The cache that [from_json] builds holds the ids of the entries when no
    two entries have the same text. *)
Lemma hydrated_cache l :
  NoDup (text <$> l) →
  cached (text_to_id l) ≡ₚ id <$> l
  ∧ dom (text_to_id l) = (list_to_set (text <$> l) : gset string).
Proof.
  induction l as [|e l IH] using rev_ind.
  - intros _. unfold text_to_id, cached. simpl.
    split; [by rewrite map_to_list_empty|by rewrite dom_empty_L].
  - rewrite fmap_app, NoDup_app. intros (Hnd & Hnotin & _).
    destruct (IH Hnd) as [Hc Hd]. unfold text_to_id in *.
    rewrite foldl_snoc. split.
    + unfold cached in *. rewrite map_to_list_insert.
      * rewrite fmap_cons, Hc, fmap_app. simpl.
        by rewrite Permutation_cons_append.
      * apply not_elem_of_dom. rewrite Hd, elem_of_list_to_set.
        intros Hin. apply (Hnotin _ Hin). left.
    + rewrite dom_insert_L, Hd, list_to_set_app_L. simpl.
      rewrite (right_id_L ∅ (∪)). by rewrite (comm_L (∪)).
Qed.

(** A document with distinct texts and at least one entry is read as a
    table that holds the document, with the blanks between its ids. *)
Lemma from_json_spec v :
  NoDup (text <$> entries v) → entries v ≠ [] →
  ∃ s', from_json v = Ok s'
    ∧ values s' = v
    ∧ ∀ top i, py_max (ids s') = Ok top →
        i ∈ blanks s' ↔ 0 ≤ i < top ∧ i ∉ ids s'.
Proof.
  intros Hnd Hne. destruct (hydrated_cache _ Hnd) as [Hc _].
  unfold from_json. rewrite (py_max_perm _ _ Hc).
  destruct (py_max (id <$> entries v)) as [top|e] eqn:E.
  - simpl. eexists. split; [done|]. split; [done|].
    intros top' i. unfold ids. simpl. rewrite E. intros [= <-].
    rewrite elem_of_list_to_set, list_elem_of_filter, elem_of_seqZ, Hc.
    split; intros [? ?]; split; first [done|lia].
  - apply py_max_nil_inv, fmap_nil_inv in E. done.
Qed.

(** C5. What [to_tlk] writes out of a table with distinct texts and at
    least one entry is read back by [from_json] as a table with the same
    entries, whose blanks are the integers from 0 up to, but without, the
    largest id that are the id of no entry; for the table with the entries
    0:"A" and 2:"B", in either order, and the blanks {1} these are the
    blanks of the table itself. *)
Theorem round_trip s :
  NoDup (text <$> entries (values s)) → entries (values s) ≠ [] →
  ∃ s', from_json (to_tlk s).1 = Ok s'
    ∧ entries (values s') ≡ₚ entries (values s)
    ∧ (∀ top i, py_max (ids s') = Ok top →
         i ∈ blanks s' ↔ 0 ≤ i < top ∧ i ∉ ids s')
    ∧ (entries (values s) ≡ₚ [Entry 0 "A"; Entry 2 "B"] →
       blanks s = {[1]} → blanks s' = blanks s).
Proof.
  intros Hnd Hne.
  pose proof (sort_by_perm (λ x y, bool_decide (id x ≤ id y))
                (entries (values s))) as Hsort.
  destruct (from_json_spec (to_tlk s).1) as (s' & Hs' & Hv & Hblanks).
  { simpl. by rewrite Hsort. }
  { simpl. intros Hnil. rewrite Hnil in Hsort.
    by apply Permutation_nil_l in Hsort. }
  exists s'. split; [done|]. split; [by rewrite Hv|]. split; [done|].
  intros Hperm ->. apply set_eq. intros i.
  assert (ids s' = [0; 2]) as Hids.
  { unfold ids. rewrite Hv. simpl. symmetry in Hperm.
    apply Permutation_length_2_inv in Hperm as [-> | ->]; reflexivity. }
  rewrite (Hblanks 2 i) by (by rewrite Hids).
  rewrite Hids, elem_of_singleton, !not_elem_of_cons.
  split; [lia|]. intros ->. split_and!; try lia. apply not_elem_of_nil.
Qed.

(** The example table, with its two entries swapped. *)
Lemma round_trip_witness :
  NoDup (text <$> entries (values swapped))
  ∧ entries (values swapped) ≠ []
  ∧ ∃ s', from_json (to_tlk swapped).1 = Ok s'
      ∧ entries (values s') ≡ₚ entries (values swapped)
      ∧ blanks s' = blanks swapped.
Proof.
  assert (NoDup (text <$> entries (values swapped))) as H1.
  { simpl. apply NoDup_cons. split; [|apply NoDup_singleton].
    by intros ?%list_elem_of_singleton. }
  assert (entries (values swapped) ≠ []) as H2 by done.
  split; [exact H1|]. split; [exact H2|].
  destruct (round_trip swapped H1 H2) as (s' & Hs' & Hperm & _ & Hblanks).
  exists s'. split; [exact Hs'|]. split; [exact Hperm|].
  apply Hblanks; [apply perm_swap|reflexivity].
Defined.
End hydration.

(** ** Derived labels *)

(** C7. What the pluralizer returns for the seven words of the table: the
    two [case] lines that list several suffixes never match, so "Witch" and
    "Class" only get an "s"; the other five words come out as listed. *)
Theorem dynamic_plural_table :
  dynamic_plural "Witch" = Ok "Witchs"
  ∧ dynamic_plural "Wife" = Ok "Wives"
  ∧ dynamic_plural "Elf" = Ok "Elves"
  ∧ dynamic_plural "Class" = Ok "Classs"
  ∧ dynamic_plural "Dwarf" = Ok "Dwarves"
  ∧ dynamic_plural "City" = Ok "Cities"
  ∧ dynamic_plural "Boy" = Ok "Boys".
Proof. repeat split. Qed.

(** ** Duplicate ids in a label file *)

Section read_labels_facts.
Import IOHelper.
Context {R : Type}.
Implicit Types (df : list (Z * R)) (idx : list Z).

Lemma sort_index_perm df : sort_index df ≡ₚ df.
Proof. apply sort_by_perm. Qed.



Lemma mask_select_cons {B} (b : bool) mask (x : B) xs :
  mask_select (b :: mask) (x :: xs)
  = if b then x :: mask_select mask xs else mask_select mask xs.
Proof.
  unfold mask_select. simpl. rewrite filter_cons. by destruct b.
Qed.










End read_labels_facts.


(** ** Static ids for spells.2da *)

Section static_ids_facts.
Implicit Types (df_json : DataFrame (option string)) (df_ids : DataFrame (option Z)).

(** What the generator yields: one triple for every id of [df_ids] that is
    not missing. *)
Lemma elem_of_reservations df_ids r column id :
  (r, column, id) ∈ reservations df_ids
  ↔ ∃ k col, index df_ids !! k = Some r
      ∧ (column, col) ∈ columns df_ids
      ∧ col !! k = Some (Some id).
Proof.
  unfold reservations. rewrite list_elem_of_join. split.
  - intros (l & Hin & Hl).
    apply elem_of_lookup_imap in Hl as (k & r' & -> & Hk).
    apply list_elem_of_omap in Hin as ([c col] & Hc & Hf).
    destruct (col !! k) as [[i|]|] eqn:E; simplify_eq. eauto.
  - intros (k & col & Hk & Hc & Hid). eexists.
    split; [|by apply (elem_of_lookup_imap_2 _ (index df_ids) r k)].
    apply list_elem_of_omap. exists (column, col). split; [done|].
    simpl. by rewrite Hid.
Qed.



(** The static ids of two spells; without the description of row 1 no id
    is reserved for it. *)
Example static_ids_5000 :
  build_df_ids 5000 (STATIC_COLUMNS 5000) spell_labels
  = Ok (Frame [0; 1] [("Name", [Some 5000; Some 5002]);
                      ("SpellDesc", [Some 5001; Some 5003])])
  ∧ build_df_ids 5000 (STATIC_COLUMNS 5000) spell_labels_partial
    = Ok (Frame [0; 1] [("Name", [Some 5000; Some 5002]);
                        ("SpellDesc", [Some 5001; None])])
  ∧ reservations (Frame [0; 1] [("Name", [Some 5000; Some 5002]);
                                ("SpellDesc", [Some 5001; None])])
    = [(0, "Name", 5000); (0, "SpellDesc", 5001); (1, "Name", 5002)].
Proof. by split_and!. Qed.

End static_ids_facts.

(** ** The merge of labels into a table *)

Section merge_facts.
Implicit Types (s : t) (pop : popper) (text column : string).
Implicit Types (df_json rj : DataFrame (option string)).
Implicit Types (df_2da : DataFrame value).

Lemma getcol_cons {A} idx c (col : list A) rest column :
  getcol (Frame idx ((c, col) :: rest)) column
  = if decide (c = column) then Ok col else getcol (Frame idx rest) column.
Proof.
  unfold getcol. simpl. destruct (decide (c = column)); [done|].
  by destruct (list_find _ rest) as [[? [? ?]]|].
Qed.

Lemma getcol_index {A} idx idx' (cols : list (string * list A)) column :
  getcol (Frame idx cols) column = getcol (Frame idx' cols) column.
Proof. done. Qed.

Lemma getcol_elem_of {A} (df : DataFrame A) column col :
  getcol df column = Ok col → (column, col) ∈ columns df.
Proof.
  destruct df as [idx cols]. simpl.
  induction cols as [|[c col'] cols IH]; [done|].
  rewrite getcol_cons. destruct (decide (c = column)) as [->|].
  - intros [= ->]. left.
  - intros H. right. by apply IH.
Qed.

Lemma getcol_Raise {A} (df : DataFrame A) column e :
  getcol df column = Raise e → column ∉ names df.
Proof.
  destruct df as [idx cols]. unfold names. simpl.
  induction cols as [|[c col'] cols IH]; [intros _; apply not_elem_of_nil|].
  rewrite getcol_cons. destruct (decide (c = column)) as [->|]; [done|].
  intros H. rewrite fmap_cons. apply not_elem_of_cons. split; [done|].
  by apply IH.
Qed.

Lemma getcol_is_Ok {A} (df : DataFrame A) column :
  column ∈ names df → ∃ col, getcol df column = Ok col.
Proof.
  intros Hin. destruct (getcol df column) as [col|e] eqn:E; [eauto|].
  by apply getcol_Raise in E.
Qed.

(** Restricting a frame to the columns of the table keeps the columns that
    the table has. *)
Lemma getcol_restrict {A} (df : DataFrame A) keep column :
  column ∈ keep → getcol (restrict df keep) column = getcol df column.
Proof.
  intros Hin. destruct df as [idx cols]. unfold restrict. simpl.
  induction cols as [|[c col] cols IH]; [done|].
  rewrite filter_cons. simpl. rewrite getcol_cons.
  destruct (decide (c ∈ keep)) as [Hc|Hc].
  - rewrite getcol_cons. by destruct (decide (c = column)).
  - destruct (decide (c = column)) as [->|]; [done|]. apply IH.
Qed.


(** The calls of [add] that mapping a column makes: one for each cell that
    is not missing. *)
Lemma series_map_add_spec pop col s out s' :
  series_map_add pop col s = Ok (out, s') →
  run (Add pop <$> omap (λ c, c) col) s = Ok s'
  ∧ (∀ text z, existing s !! text = Some z → existing s' !! text = Some z)
  ∧ mirrors (cached_ref s') col (refs out).
Proof.
  induction col as [|[text|] col IH] in s, out |- *; simpl.
  - intros [= <- <-]. split; [done|]. split; [done|constructor].
  - intros ([v s1] & Hadd & H)%bind_Ok.
    apply bind_Ok in H as ([out' s2] & Hrec & [= <- <-]).
    destruct (add_total pop text s) as (v' & s1' & E & Hv & Hkeep & _).
    rewrite E in Hadd. injection Hadd as -> ->.
    apply IH in Hrec as (Hrun & Hkeep' & Hm). rewrite E. simpl.
    split; [done|]. split; [by eauto|].
    constructor; [|done]. exists (Num v). split; [done|]. exists v. eauto.
  - intros ([out' s2] & Hrec & [= <- <-])%bind_Ok.
    apply IH in Hrec as (Hrun & Hkeep & Hm). split; [done|].
    split; [done|]. by constructor.
Qed.

Lemma mirrors_impl (P Q : string → value → Prop) col that :
  (∀ text v, P text v → Q text v) → mirrors P col that → mirrors Q col that.
Proof.
  intros HPQ Hm. eapply Forall2_impl; [done|]. intros [text|] o; [|done].
  intros (v & -> & Hv). eauto.
Qed.


Lemma Forall_is_label_column df_json column col pop :
  (column, col) ∈ columns df_json →
  Forall (λ o, is_label df_json (op_text o)) (Add pop <$> omap (λ c, c) col).
Proof.
  intros Hin. apply Forall_forall. intros o (text & -> & Ht)%list_elem_of_fmap.
  apply list_elem_of_omap in Ht as (c & Hc & ->). by exists column, col.
Qed.

Lemma columns_map_add_spec pop idx cols s outs s' :
  columns_map_add pop cols s = Ok (outs, s') →
  (∃ ops, run ops s = Ok s'
     ∧ Forall (λ o, is_label (Frame idx cols) (op_text o)) ops)
  ∧ (∀ text z, existing s !! text = Some z → existing s' !! text = Some z)
  ∧ Forall2 (λ c o, c.1 = o.1 ∧ mirrors (cached_ref s') c.2 (refs o.2))
      cols outs.
Proof.
  induction cols as [|[name col] cols IH] in s, outs |- *; simpl.
  - intros [= <- <-]. split; [|by split; [|constructor]]. exists []. by split.
  - intros ([out s1] & Hcol & H)%bind_Ok.
    apply bind_Ok in H as ([outs' s2] & Hrec & [= <- <-]).
    apply series_map_add_spec in Hcol as (Hrun & Hkeep & Hm).
    apply IH in Hrec as ((ops & Hops & Hall) & Hkeep' & HF). split_and!.
    + exists ((Add pop <$> omap (λ c, c) col) ++ ops). split.
      * by rewrite (run_app _ _ _ _ Hrun).
      * apply Forall_app. split.
        -- apply (Forall_is_label_column (Frame idx ((name, col) :: cols)) name).
           left.
        -- eapply Forall_impl; [done|]. intros o (c & cl & Hin & Ht).
           exists c, cl. split; [by right|done].
    + by eauto.
    + constructor; [|done]. split; [done|]. simpl.
      eapply mirrors_impl; [|done]. intros text v (z & -> & Hz).
      exists z. eauto.
Qed.

(** Columns that correspond name by name are found together. *)
Lemma getcol_Forall2 {A B} (Q : list A → list B → Prop) idx idx'
    (cols : list (string * list A)) (outs : list (string * list B)) column :
  Forall2 (λ c o, c.1 = o.1 ∧ Q c.2 o.2) cols outs →
  match getcol (Frame idx cols) column, getcol (Frame idx' outs) column with
  | Ok col, Ok out => Q col out
  | Raise _, Raise _ => True
  | _, _ => False
  end.
Proof.
  induction 1 as [|[c col] [c' out] cols outs [Hn HQ] _ IH]; [done|].
  simpl in Hn, HQ. subst c'. rewrite !getcol_cons.
  by destruct (decide (c = column)).
Qed.

Lemma loc_mirrors P idx col that r :
  mirrors P col that →
  match loc idx col r with
  | Some text => ∃ v, loc idx that r = Some v ∧ P text v
  | None => loc idx that r = None
  end.
Proof.
  intros Hm. induction Hm as [|c o col that Hco _ IH] in idx |- *.
  - by destruct idx.
  - destruct idx as [|i idx]; [done|]. simpl.
    destruct (bool_decide (i = r)); [|apply IH].
    destruct c; [done|by subst o].
Qed.

(** What [update] leaves in a cell: the value of [other] for the row label
    and the column name when it has one, else what was there. *)
Lemma update_spec df_2da other merged :
  update df_2da other = Ok merged →
  index merged = index df_2da
  ∧ names merged = names df_2da
  ∧ ∀ j column new k v,
      columns merged !! j = Some (column, new) → new !! k = Some v →
      ∃ this old,
        columns df_2da !! j = Some (column, this)
        ∧ this !! k = Some old
        ∧ v = default old
                (r ← index df_2da !! k;
                 match getcol other column with
                 | Ok that => loc (index other) that r
                 | Raise _ => None
                 end).
Proof.
  unfold update. destruct (bool_decide _); [|done]. intros [= <-]. simpl.
  split; [done|]. split.
  { unfold names. simpl. rewrite <- list_fmap_compose.
    apply list_fmap_ext. intros _ [name this] _. simpl.
    by destruct (getcol other name). }
  intros j column new k v Hj Hk.
  rewrite list_lookup_fmap in Hj.
  destruct (columns df_2da !! j) as [[name this]|] eqn:Ej; [|done].
  simpl in Hj. destruct (getcol other name) as [that|e] eqn:Eg.
  - injection Hj as -> <-. rewrite Eg.
    apply lookup_zip_with_Some in Hk as (old & r & -> & Hold & Hr).
    exists this, old. by rewrite Hr.
  - injection Hj as -> ->. rewrite Eg.
    exists new, v. split_and!; [done..|]. by destruct (index df_2da !! k).
Qed.

Lemma lookup_names {A} (df : DataFrame A) j column col :
  columns df !! j = Some (column, col) → column ∈ names df.
Proof.
  intros H. unfold names. apply list_elem_of_fmap. exists (column, col).
  split; [done|]. by eapply list_elem_of_lookup_2.
Qed.

(** The columns of the restricted label frame, as seen from a column of the
    table. *)
Lemma override_restrict df_2da df_json column r :
  column ∈ names df_2da →
  override (restrict df_json (names df_2da)) r column = override df_json r column.
Proof. intros H. unfold override. by rewrite getcol_restrict. Qed.

Lemma empty_frame_override df_json r column :
  empty_frame df_json = true → override df_json r column = None.
Proof.
  unfold empty_frame, override. intros [H|H]%orb_true_iff.
  - apply bool_decide_eq_true in H. rewrite H.
    by destruct (getcol df_json column) as [[|??]|].
  - apply bool_decide_eq_true in H.
    destruct (getcol df_json column) as [col|] eqn:E; [|done].
    apply getcol_elem_of in E. apply (list_elem_of_fmap_2 fst) in E.
    unfold names in H. rewrite H in E. by apply elem_of_nil in E.
Qed.

(** The general rule: every column of the label frame is mapped through
    [add] and laid over the table. *)
Lemma merge_general pop df_2da rj s cols s' merged :
  columns_map_add pop (columns rj) s = Ok (cols, s') →
  update df_2da (Frame (index rj) (prod_map (λ c, c) refs <$> cols)) = Ok merged →
  ∀ j column new k v,
    columns merged !! j = Some (column, new) → new !! k = Some v →
    ∃ this old,
      columns df_2da !! j = Some (column, this)
      ∧ this !! k = Some old
      ∧ match label_for df_2da rj column k with
        | Some text => cached_ref s' text v
        | None => v = old
        end.
Proof.
  intros Hmap Hupd j column new k v Hj Hk.
  apply (columns_map_add_spec _ (index rj)) in Hmap as (_ & _ & HF).
  apply update_spec in Hupd as (_ & _ & Hcell).
  destruct (Hcell j column new k v Hj Hk) as (this & old & Hthis & Hold & ->).
  exists this, old. split; [done|]. split; [done|].
  unfold label_for, override. destruct (index df_2da !! k) as [r|]; [simpl|done].
  assert (Forall2 (λ c o, c.1 = o.1 ∧ mirrors (cached_ref s') c.2 o.2)
            (columns rj)
            (prod_map (λ c, c) refs <$> cols)) as HF'.
  { apply Forall2_fmap_r. eapply Forall2_impl; [done|]. by intros [??] [??]. }
  pose proof (getcol_Forall2 _ (index rj) (index rj) _ _ column HF') as Hg.
  destruct rj as [idx jcols]. simpl in *.
  destruct (getcol (Frame idx jcols) column) as [col|],
    (getcol (Frame idx _) column) as [that|]; try done.
  pose proof (loc_mirrors _ idx _ _ r Hg) as Hl.
  destruct (loc idx col r) as [text|].
  - by destruct Hl as (w & -> & Hw).
  - by rewrite Hl.
Qed.

(** The special rule for spells.2da. *)


Lemma mirrors_Str (P : string → value → Prop) col :
  (∀ text v, P text v) →
  mirrors P col ((λ cell : option string, Str <$> cell) <$> col).
Proof.
  intros HP. apply Forall2_fmap_r, Forall_Forall2_diag, Forall_forall.
  intros [text|] _; simpl; eauto.
Qed.


Lemma loc_fmap {A B} (f : A → B) idx (col : list (option A)) r :
  loc idx ((λ cell : option A, f <$> cell) <$> col) r = f <$> loc idx col r.
Proof.
  induction idx as [|i idx IH] in col |- *; destruct col as [|c col]; try done.
  simpl. destruct (bool_decide (i = r)); [done|apply IH].
Qed.

Lemma loc_static (g : Z → Z) idx (col : list (option string)) r :
  loc idx (zip_with (λ r cell, match cell with
                               | Some _ => Some (g r)
                               | None => None
                               end) idx col) r
  = (λ _, g r) <$> loc idx col r.
Proof.
  induction idx as [|i idx IH] in col |- *; destruct col as [|c col]; try done.
  simpl. destruct (bool_decide (i = r)) eqn:E; [|apply IH].
  apply bool_decide_eq_true in E. subst i. by destruct c.
Qed.






Lemma elem_of_todo rj (static : list string) column col :
  getcol rj column = Ok col → column ∉ static →
  column ∈ sort_by String.leb (filter (λ c, c ∉ static) (names rj)).
Proof.
  intros Hcol Hns. rewrite sort_by_perm. apply list_elem_of_filter.
  split; [done|]. apply getcol_elem_of in Hcol.
  by apply (list_elem_of_fmap_2 fst) in Hcol.
Qed.


(** The special rule on a spells table with two rows: the other columns
    are mapped first, the names and descriptions get their static ids, and
    the description that is missing leaves its cell as it was. *)
Example spells_merge :
  match add_2da_labels smallest "spells" 5000 spells_2da spell_labels_alt
          init with
  | Ok (merged, s) =>
      merged
      = Frame [0; 1] [("Label", [Str "Fireball"; Str "Frost"]);
                      ("Name", [Num (5000 + OFFSET); Num (5002 + OFFSET)]);
                      ("SpellDesc", [Num (5001 + OFFSET); Num 77]);
                      ("AltMessage", [Str "****"; Num (0 + OFFSET)])]
      ∧ entries (values s)
        = [Entry 0 "brr"; Entry 5000 "Fireball"; Entry 5001 "Burns.";
           Entry 5002 "Frost"]
  | Raise _ => False
  end.
Proof. vm_compute. by split. Qed.

(** A call appends at most one entry, with the text it was given. *)
Lemma step_entries o s s' :
  step o s = Ok s' →
  entries (values s') = entries (values s)
  ∨ ∃ i, entries (values s') = entries (values s) ++ [Entry i (op_text o)].
Proof.
  destruct o as [pop text|id text]; simpl.
  - intros ([v s1] & Hadd & [= <-])%bind_Ok.
    destruct (existing s !! text) as [w|] eqn:E.
    + rewrite (add_cached _ _ _ _ E) in Hadd. injection Hadd as _ <-. by left.
    + destruct (decide (blanks s = ∅)) as [B|B].
      * rewrite (add_fresh_len _ _ _ E B) in Hadd. injection Hadd as _ <-.
        right. by eexists.
      * rewrite (add_fresh_pop _ _ _ E B) in Hadd. injection Hadd as _ <-.
        right. by eexists.
  - intros ([v s1] & Hadd & [= <-])%bind_Ok. unfold add_id in Hadd.
    apply bind_Ok in Hadd as (m & _ & Hadd).
    destruct (_ && _); [done|].
    apply bind_Ok in Hadd as (w & _ & [= _ <-]). right. by eexists.
Qed.


Lemma label_for_restrict df_2da df_json column k :
  column ∈ names df_2da →
  label_for df_2da (restrict df_json (names df_2da)) column k
  = label_for df_2da df_json column k.
Proof.
  intros Hin. unfold label_for.
  destruct (index df_2da !! k); [simpl|done]. by apply override_restrict.
Qed.


End merge_facts.

(** * Further properties *)

(** ** Reservations *)

Section reservation_facts.
Implicit Types (s : t) (text : string) (pop : popper).

Lemma elem_of_cached (m : gmap string Z) v :
  v ∈ cached m ↔ ∃ k, m !! k = Some v.
Proof.
  unfold cached. rewrite list_elem_of_fmap. split.
  - intros ([k v'] & -> & Hin). exists k. by apply elem_of_map_to_list.
  - intros (k & Hk). exists (k, v). split; [done|].
    by apply elem_of_map_to_list.
Qed.

Lemma elem_of_range lo hi x : x ∈ range lo hi ↔ lo ≤ x < hi.
Proof. unfold range. rewrite elem_of_list_to_set, elem_of_seqZ. lia. Qed.

(** [max_value] never raises: it is 0 for an empty cache and else the
    largest cached id, taken back by [OFFSET]. *)
Lemma max_value_spec s m :
  max_value s = Ok m
  ↔ (existing s = ∅ ∧ m = 0)
    ∨ ((∃ k, existing s !! k = Some (m + OFFSET))
       ∧ ∀ k v, existing s !! k = Some v → v ≤ m + OFFSET).
Proof.
  unfold max_value.
  destruct (decide (existing s = ∅)) as [He|Hne].
  - rewrite bool_decide_eq_false_2
      by (rewrite He, map_size_empty; lia).
    split.
    + intros [= <-]. by left.
    + intros [[_ ->]|[(k & Hk) _]]; [done|].
      by rewrite He, lookup_empty in Hk.
  - rewrite bool_decide_eq_true_2
      by (apply map_size_non_empty_iff in Hne; lia).
    destruct (py_max (cached (existing s))) as [x|e] eqn:E; simpl.
    + apply py_max_spec in E as [Hin Hall].
      apply elem_of_cached in Hin as (k & Hk).
      rewrite Forall_forall in Hall. split.
      * intros [= <-]. right. split.
        -- exists k. by replace (x - OFFSET + OFFSET) with x by lia.
        -- intros k' v Hv. specialize (Hall v).
           rewrite elem_of_cached in Hall.
           assert (v ≤ x) by eauto. lia.
      * intros [[? _]|[(k' & Hk') Hle]]; [done|]. f_equal.
        assert (x ≤ m + OFFSET) by eauto.
        assert (m + OFFSET ≤ x).
        { apply Hall, elem_of_cached. eauto. }
        lia.
    + apply py_max_nil_inv in E. apply map_choose in Hne as (k & v & Hk).
      assert (v ∈ cached (existing s)) as Hin
        by (apply elem_of_cached; eauto).
      rewrite E in Hin. by apply elem_of_nil in Hin.
Qed.

Lemma max_value_total s : ∃ m, max_value s = Ok m.
Proof.
  unfold max_value. destruct (bool_decide _) eqn:Hb; [|eauto].
  destruct (py_max (cached (existing s))) as [x|e] eqn:E; simpl; [eauto|].
  apply py_max_nil_inv in E. apply bool_decide_eq_true in Hb.
  unfold cached in E. apply fmap_nil_inv, map_to_list_empty_iff in E.
  rewrite E, map_size_empty in Hb. lia.
Qed.

Lemma add_id_cases id text s v s' :
  add_id id text s = Ok (v, s') →
  ∃ m, max_value s = Ok m
    ∧ (m = 0 ∨ m < id)
    ∧ v = id + OFFSET
    ∧ entries (values s') = entries (values s) ++ [Entry id text]
    ∧ language (values s') = language (values s)
    ∧ existing s' = <[text := id + OFFSET]> (existing s)
    ∧ blanks s' = blanks s ∪ range (m + 1) id.
Proof.
  unfold add_id. intros (m & Hm & Hadd)%bind_Ok.
  exists m. split; [done|]. cbv beta in Hadd.
  destruct (bool_decide (m ≠ 0) && bool_decide (id ≤ m)) eqn:E; [done|].
  apply andb_false_iff in E. rewrite !bool_decide_eq_false in E.
  cbn [existing add_item] in Hadd. rewrite getitem_insert in Hadd.
  simpl in Hadd. injection Hadd as <- <-.
  simpl. split_and!; try done.
  destruct (decide (m = 0)); [by left|right]. destruct E; [done|lia].
Qed.

Lemma add_id_raises id text s e :
  add_id id text s = Raise e →
  e = ValueError ∧ ∃ m, max_value s = Ok m ∧ m ≠ 0 ∧ id ≤ m.
Proof.
  unfold add_id. destruct (max_value_total s) as [m ->]. simpl.
  destruct (bool_decide (m ≠ 0) && bool_decide (id ≤ m)) eqn:E.
  - intros [= <-]. split; [done|]. exists m.
    apply andb_true_iff in E. rewrite !bool_decide_eq_true in E.
    by destruct E.
  - by rewrite getitem_insert.
Qed.

(** X2. [add_id] compares the id with [max_value], which is 0 for an
    empty cache and otherwise the largest cached id minus [OFFSET].  It
    raises [ValueError], and nothing else, exactly when [max_value] is not
    0 and the id does not exceed it; otherwise it returns the id plus
    [OFFSET], appends one entry with the id and the text, caches the text
    and adds to the blanks exactly the integers strictly between
    [max_value] and the id. *)
Theorem add_id_outcome id text s :
  ∃ m,
    ((existing s = ∅ ∧ m = 0)
     ∨ ((∃ k, existing s !! k = Some (m + OFFSET))
        ∧ ∀ k v, existing s !! k = Some v → v ≤ m + OFFSET))
    ∧ ((m ≠ 0 ∧ id ≤ m) ∧ add_id id text s = Raise ValueError
       ∨ (m = 0 ∨ m < id)
         ∧ ∃ s', add_id id text s = Ok (id + OFFSET, s')
             ∧ entries (values s') = entries (values s) ++ [Entry id text]
             ∧ language (values s') = language (values s)
             ∧ existing s' = <[text := id + OFFSET]> (existing s)
             ∧ ∀ x, x ∈ blanks s' ↔ x ∈ blanks s ∨ m < x < id).
Proof.
  destruct (max_value_total s) as [m Hm]. exists m.
  split; [by apply max_value_spec|].
  destruct (add_id id text s) as [[v s']|e] eqn:E.
  - right. apply add_id_cases in E as (m' & Hm' & Hc & -> & He & Hl & Hx & Hb).
    rewrite Hm in Hm'. injection Hm' as <-.
    split; [done|]. exists s'. split_and!; try done.
    intros x. rewrite Hb, elem_of_union, elem_of_range.
    apply or_iff_compat_l. lia.
  - left. apply add_id_raises in E as (-> & m' & Hm' & H0 & Hle).
    rewrite Hm in Hm'. injection Hm' as <-. done.
Qed.

(** A reservation above the current maximum is accepted and becomes the
    maximum. *)
Lemma add_id_above id text s m :
  max_value s = Ok m → m < id →
  ∃ s', add_id id text s = Ok (id + OFFSET, s')
    ∧ entries (values s') = entries (values s) ++ [Entry id text]
    ∧ max_value s' = Ok id
    ∧ ∀ x, x ∈ blanks s' ↔ x ∈ blanks s ∨ m < x < id.
Proof.
  intros Hm Hlt. unfold add_id. rewrite Hm. simpl.
  assert (bool_decide (m ≠ 0) && bool_decide (id ≤ m) = false) as ->.
  { apply andb_false_iff. right. apply bool_decide_eq_false. lia. }
  rewrite getitem_insert. eexists. split; [done|]. simpl.
  split; [done|]. split.
  - apply max_value_spec. right. simpl. split.
    + exists text. by rewrite lookup_insert_eq.
    + intros k v. rewrite lookup_insert.
      destruct (decide (text = k)); [intros [= <-]; lia|]. intros Hv.
      apply max_value_spec in Hm as [[He _]|[_ Hle]].
      * by rewrite He, lookup_empty in Hv.
      * specialize (Hle _ _ Hv). lia.
  - intros x. rewrite elem_of_union, elem_of_range.
    apply or_iff_compat_l. lia.
Qed.

(** X3. Reservations in strictly ascending order above [max_value] all
    succeed: the entries are appended in the order of the calls,
    [max_value] becomes the last id, and the blanks gain exactly the
    integers above the old [max_value] and below the last id that were
    not reserved. *)
Theorem ascending_reservations (calls : list (Z * string)) s m :
  max_value s = Ok m →
  StronglySorted Z.lt (m :: calls.*1) →
  ∃ s', run ((λ c, AddId c.1 c.2) <$> calls) s = Ok s'
    ∧ entries (values s')
      = entries (values s) ++ ((λ c, Entry c.1 c.2) <$> calls)
    ∧ max_value s' = Ok (default m (last calls.*1))
    ∧ ∀ x, x ∈ blanks s'
           ↔ x ∈ blanks s
             ∨ (m < x < default m (last calls.*1) ∧ x ∉ calls.*1).
Proof.
  induction calls as [|[id text] calls IH] in s, m |- *; intros Hm Hs.
  { exists s. simpl. rewrite (right_id_L [] (++)).
    split_and!; [done..|]. intros x. split; [by left|].
    intros [?|[? _]]; [done|lia]. }
  rewrite fmap_cons in Hs. simpl in Hs.
  apply StronglySorted_inv in Hs as [Hs Hall].
  apply Forall_cons in Hall as [Hlt Hall].
  destruct (add_id_above id text s m Hm Hlt) as (s1 & Hadd & He1 & Hm1 & Hb1).
  destruct (IH s1 id Hm1 Hs) as (s' & Hrun & He & Hm' & Hb).
  assert (Forall (Z.lt id) calls.*1) as Hall'
    by by apply StronglySorted_inv in Hs as [_ ?].
  assert (id ≤ default id (last calls.*1)) as Hlast.
  { destruct (last calls.*1) as [z|] eqn:El; simpl; [|lia].
    apply last_Some_elem_of in El. rewrite Forall_forall in Hall'.
    specialize (Hall' _ El). lia. }
  assert (default m (last ((id, text) :: calls).*1)
          = default id (last calls.*1)) as Hd.
  { rewrite fmap_cons. simpl fst. rewrite last_cons.
    by destruct (last calls.*1). }
  exists s'. split_and!.
  - simpl. rewrite Hadd. simpl. done.
  - rewrite He, He1, fmap_cons, <- (assoc_L (++)). done.
  - by rewrite Hd.
  - intros x. rewrite Hd, Hb, Hb1, fmap_cons, not_elem_of_cons. simpl fst.
    rewrite Forall_forall in Hall'. split.
    + intros [[?|?]|[? ?]]; [by left|right|right].
      * split_and!; try lia. intros Hin. specialize (Hall' _ Hin). lia.
      * split_and!; try lia; done.
    + intros [?|[? [? ?]]]; [by left; left|].
      destruct (decide (x < id)); [left; right; lia|right].
      split; [lia|done].
Qed.

Lemma ascending_reservations_witness :
  let calls := [(3, "a"); (5, "b"); (6, "c")] in
  max_value init = Ok 0
  ∧ StronglySorted Z.lt (0 :: calls.*1)
  ∧ ∃ s', run ((λ c, AddId c.1 c.2) <$> calls) init = Ok s'
      ∧ entries (values s')
        = entries (values init) ++ ((λ c, Entry c.1 c.2) <$> calls)
      ∧ max_value s' = Ok (default 0 (last calls.*1))
      ∧ ∀ x, x ∈ blanks s'
             ↔ x ∈ blanks init
               ∨ (0 < x < default 0 (last calls.*1) ∧ x ∉ calls.*1).
Proof.
  assert (max_value init = Ok 0) as Hm by reflexivity.
  assert (StronglySorted Z.lt (0 :: [(3, "a"); (5, "b"); (6, "c")].*1))
    as Hs by (repeat constructor; lia).
  split; [exact Hm|]. split; [exact Hs|].
  exact (ascending_reservations [(3, "a"); (5, "b"); (6, "c")] init 0 Hm Hs).
Defined.
End reservation_facts.

(** ** Runs of calls *)

Section run_facts.
Implicit Types (s : t) (text : string) (pop : popper) (ops : list op).

Lemma add_cases pop text s v s' :
  add pop text s = Ok (v, s') →
  (existing s !! text = Some v ∧ s' = s)
  ∨ (existing s !! text = None
     ∧ ∃ i, v = i + OFFSET
       ∧ entries (values s') = entries (values s) ++ [Entry i text]
       ∧ language (values s') = language (values s)
       ∧ existing s' = <[text := i + OFFSET]> (existing s)
       ∧ blanks s' = blanks s ∖ {[i]}
       ∧ (i ∈ blanks s ∨ blanks s = ∅ ∧ i = len s)).
Proof.
  intros H. destruct (existing s !! text) as [w|] eqn:E.
  - rewrite (add_cached pop text s w E) in H. injection H as <- <-. by left.
  - right. split; [done|].
    destruct (decide (blanks s = ∅)) as [Hb|Hb].
    + rewrite (add_fresh_len pop text s E Hb) in H. injection H as <- <-.
      exists (len s). simpl. split_and!; try done.
      * symmetry. apply difference_disjoint_L. rewrite Hb.
        apply disjoint_empty_l.
      * by right.
    + rewrite (add_fresh_pop pop text s E Hb) in H. injection H as <- <-.
      exists (pop (blanks s)). simpl. split_and!; try done.
      left. by apply pop_elem.
Qed.

Lemma length_filter_fmap {A B} `{EqDecision B} (f : A → B) (l : list A) b :
  length (filter (λ a, f a = b) l) = length (filter (λ x, x = b) (f <$> l)).
Proof.
  induction l as [|a l IH]; [done|].
  rewrite fmap_cons, !filter_cons. repeat case_decide; simpl; congruence.
Qed.

Lemma filter_eq_not_elem_of {B} `{EqDecision B} (l : list B) b :
  b ∉ l → filter (λ x, x = b) l = [].
Proof.
  induction l as [|x l IH]; [done|].
  intros [Hne Hl]%not_elem_of_cons. rewrite filter_cons.
  rewrite decide_False by done. by apply IH.
Qed.

Lemma length_filter_NoDup {B} `{EqDecision B} (l : list B) b :
  NoDup l → b ∈ l → length (filter (λ x, x = b) l) = 1%nat.
Proof.
  induction 1 as [|x l Hx Hl IH]; [by intros ?%elem_of_nil|].
  rewrite filter_cons. intros [->|Hin]%elem_of_cons.
  - rewrite decide_True by done. simpl.
    by rewrite filter_eq_not_elem_of.
  - rewrite decide_False by (by intros ->). by apply IH.
Qed.

Lemma len_snoc s s' e :
  entries (values s') = entries (values s) ++ [e] → len s' = len s + 1.
Proof. unfold len. intros ->. rewrite length_app. simpl. lia. Qed.

Lemma ids_snoc s s' e :
  entries (values s') = entries (values s) ++ [e] → ids s' = ids s ++ [id e].
Proof. unfold ids. intros ->. by rewrite fmap_app. Qed.

Lemma len_nonneg s : 0 ≤ len s.
Proof. unfold len. lia. Qed.

Lemma add_dense pop text s v s' :
  dense s → add pop text s = Ok (v, s') → dense s'.
Proof.
  intros (Hb & Hi & Hc) Hadd.
  apply add_cases in Hadd
    as [[_ ->]|(Hn & i & -> & He & _ & Hx & Hb' & Hi')]; [done|].
  destruct Hi' as [Hi'|[_ ->]]; [by rewrite Hb in Hi'|].
  split_and!.
  - rewrite Hb', Hb. apply set_eq. intros x.
    rewrite elem_of_difference. split; [by intros [? _]|by intros ?%elem_of_empty].
  - rewrite (ids_snoc _ _ _ He), (len_snoc _ _ _ He), Hi. simpl.
    pose proof (len_nonneg s).
    rewrite (seqZ_app 0 (len s) 1) by lia. done.
  - intros e. rewrite He, Hx, elem_of_app, list_elem_of_singleton.
    intros [Hin| ->].
    + specialize (Hc _ Hin). rewrite lookup_insert_ne; [done|].
      intros Heq. by rewrite <- Heq, Hn in Hc.
    + simpl. by rewrite lookup_insert_eq.
Qed.

Lemma run_adds_dense calls s :
  dense s → ∃ s', run (adds calls) s = Ok s' ∧ dense s'.
Proof.
  induction calls as [|[pop text] calls IH] in s |- *; intros Hd.
  { by exists s. }
  destruct (add_total pop text s) as (v & s1 & Hadd & _).
  destruct (IH s1 (add_dense _ _ _ _ _ Hd Hadd)) as (s' & Hrun & Hd').
  exists s'. split; [|done]. simpl. by rewrite Hadd.
Qed.

(** X1. A table that is only ever filled by [add] has no gaps: whatever
    the calls, the run returns, no blank exists, the ids of the entries
    are their positions 0, 1, ... in table order, the cache maps the text
    of every entry to its id plus [OFFSET], and the occupancy invariant
    holds. *)
Theorem add_only_consecutive (calls : list (popper * string)) :
  ∃ s, run (adds calls) init = Ok s
    ∧ blanks s = ∅
    ∧ ids s = seqZ 0 (len s)
    ∧ (∀ e, e ∈ entries (values s) →
            existing s !! text e = Some (id e + OFFSET))
    ∧ occupancy s.
Proof.
  destruct (run_adds_dense calls init) as (s & Hrun & Hb & Hi & Hc).
  { split_and!; [done..|]. by intros e ?%elem_of_nil. }
  exists s. split_and!; try done.
  intros top i Htop Hr. left. rewrite Hb. split; [|apply not_elem_of_empty].
  apply py_max_spec in Htop as [Htop _].
  rewrite Hi in Htop. apply elem_of_seqZ in Htop.
  unfold ids in Hi.
  rewrite (length_filter_fmap id), Hi.
  apply length_filter_NoDup; [apply NoDup_seqZ|].
  apply elem_of_seqZ. lia.
Qed.

(** ** Texts of entries are cached *)

Lemma text_to_id_last (l : list entry) text :
  text_to_id l !! text = id <$> last (filter (λ e, TLK.text e = text) l).
Proof.
  unfold text_to_id. induction l as [|e l IH] using rev_ind; [done|].
  rewrite foldl_snoc, filter_app, filter_cons, filter_nil.
  destruct (decide (TLK.text e = text)) as [<-|Hne].
  - by rewrite lookup_insert_eq, last_snoc.
  - by rewrite lookup_insert_ne, (right_id_L [] (++)).
Qed.

Lemma step_texts_cached o s s' :
  texts_cached s → step o s = Ok s' → texts_cached s'.
Proof.
  intros Hc Hstep. destruct o as [pop text|i text]; simpl in Hstep.
  - apply bind_Ok in Hstep as ([v s1] & Hadd & [= ->]).
    apply add_cases in Hadd
      as [[_ ->]|(Hn & i & -> & He & _ & Hx & _)]; [done|].
    intros e. rewrite He, Hx, elem_of_app, list_elem_of_singleton.
    intros [Hin| ->]; simpl.
    + rewrite lookup_insert. case_decide; [done|]. by apply Hc.
    + by rewrite lookup_insert_eq.
  - apply bind_Ok in Hstep as ([v s1] & Hadd & [= ->]).
    apply add_id_cases in Hadd as (m & _ & _ & _ & He & _ & Hx & _).
    intros e. rewrite He, Hx, elem_of_app, list_elem_of_singleton.
    intros [Hin| ->]; simpl.
    + rewrite lookup_insert. case_decide; [done|]. by apply Hc.
    + by rewrite lookup_insert_eq.
Qed.

Lemma from_json_texts_cached v s : from_json v = Ok s → texts_cached s.
Proof.
  unfold from_json. intros (top & _ & [= <-])%bind_Ok. intros e He.
  simpl in *. rewrite text_to_id_last.
  assert (e ∈ filter (λ e', text e' = text e) (entries v)) as Hin
    by by apply list_elem_of_filter.
  destruct (filter _ (entries v)) as [|x l] using rev_ind;
    [by apply elem_of_nil in Hin|].
  by rewrite last_snoc.
Qed.

Lemma run_texts_cached ops s s' :
  texts_cached s → run ops s = Ok s' → texts_cached s'.
Proof.
  induction ops as [|o ops IH] in s |- *; simpl.
  { by intros ? [= <-]. }
  intros Hc (s1 & Hstep & Hrun)%bind_Ok.
  eapply IH; [|done]. by eapply step_texts_cached.
Qed.

(** X4. In a table that calls of [add] and [add_id] built from the empty
    table or from a table read by [from_json], the text of every entry is
    a key of the cache: [add] with the text of an entry returns the cached
    id and leaves the table as it is. *)
Theorem entry_text_is_cached s0 ops s pop e :
  s0 = init ∨ (∃ v, from_json v = Ok s0) →
  run ops s0 = Ok s →
  e ∈ entries (values s) →
  ∃ v, existing s !! text e = Some v ∧ add pop (text e) s = Ok (v, s).
Proof.
  intros H0 Hrun He.
  assert (texts_cached s0) as Hc0.
  { destruct H0 as [->|[v Hv]]; [by intros ? ?%elem_of_nil|].
    by eapply from_json_texts_cached. }
  destruct (run_texts_cached _ _ _ Hc0 Hrun e He) as [v Hv].
  exists v. split; [done|]. by apply add_cached.
Qed.

Lemma entry_text_is_cached_witness :
  let s := Mk (MkValues 0 [Entry 7 "a"]) {["a" := 7 + OFFSET]}
              {[1; 2; 3; 4; 5; 6]} in
  run [AddId 7 "a"] init = Ok s
  ∧ ∃ v, existing s !! "a" = Some v ∧ add smallest "a" s = Ok (v, s).
Proof.
  assert (run [AddId 7 "a"] init
          = Ok (Mk (MkValues 0 [Entry 7 "a"]) {["a" := 7 + OFFSET]}
                   {[1; 2; 3; 4; 5; 6]})) as Hrun by (by vm_compute).
  split; [exact Hrun|].
  exact (entry_text_is_cached init [AddId 7 "a"] _ smallest (Entry 7 "a")
           (or_introl eq_refl) Hrun (list_elem_of_here _ _)).
Defined.

(** ** Blanks and entries *)

Lemma max_value_insert s s' m i text :
  max_value s = Ok m → 0 ≤ i →
  existing s !! text = None ∨ m ≤ i →
  existing s' = <[text := i + OFFSET]> (existing s) →
  max_value s' = Ok (Z.max m i).
Proof.
  intros Hm Hi0 Hc Hx. apply max_value_spec. right. rewrite Hx.
  apply max_value_spec in Hm. split.
  - destruct (decide (m ≤ i)) as [Hle|Hlt].
    + exists text. rewrite lookup_insert_eq. f_equal. lia.
    + destruct Hc as [Hn|?]; [|lia].
      destruct Hm as [[He ->]|[[k Hk] _]].
      * exists text. rewrite lookup_insert_eq. f_equal. lia.
      * exists k. rewrite lookup_insert_ne by (intros <-; congruence).
        rewrite Hk. f_equal. lia.
  - intros k v. rewrite lookup_insert.
    case_decide; [intros [= <-]; lia|]. intros Hv.
    destruct Hm as [[He _]|[_ Hle]].
    + by rewrite He, lookup_empty in Hv.
    + specialize (Hle _ _ Hv). lia.
Qed.

Lemma step_bounded o s s' m :
  nonneg o → bounded s m → step o s = Ok s' → ∃ m', bounded s' m'.
Proof.
  intros Hnn (Hm & H0 & Hi & Hb) Hstep.
  destruct o as [pop text|i text]; simpl in Hstep, Hnn.
  - apply bind_Ok in Hstep as ([v s1] & Hadd & [= ->]).
    apply add_cases in Hadd
      as [[_ ->]|(Hn & i & -> & He & _ & Hx & Hb' & Hi')];
      [by exists m|].
    pose proof (len_nonneg s) as Hlen.
    assert (0 ≤ i) as Hi0.
    { destruct Hi' as [Hin|[_ ->]]; [|done]. apply Hb in Hin. lia. }
    exists (Z.max m i). split_and!.
    + eapply max_value_insert; eauto.
    + lia.
    + intros x. rewrite (ids_snoc _ _ _ He), elem_of_app.
      rewrite list_elem_of_singleton. simpl.
      intros [Hin| ->]; [apply Hi in Hin|]; lia.
    + intros b. rewrite Hb', elem_of_difference, not_elem_of_singleton.
      intros [Hin Hne]. apply Hb in Hin as [Hr Hnin].
      split; [lia|]. rewrite (ids_snoc _ _ _ He), elem_of_app.
      rewrite list_elem_of_singleton. simpl. by intros [?|?].
  - apply bind_Ok in Hstep as ([v s1] & Hadd & [= ->]).
    apply add_id_cases in Hadd as (m' & Hm' & Hc & _ & He & _ & Hx & Hb').
    rewrite Hm in Hm'. injection Hm' as <-.
    assert (m ≤ i) as Hle by lia.
    exists (Z.max m i). split_and!.
    + eapply max_value_insert; eauto.
    + lia.
    + intros x. rewrite (ids_snoc _ _ _ He), elem_of_app.
      rewrite list_elem_of_singleton. simpl.
      intros [Hin| ->]; [apply Hi in Hin|]; lia.
    + intros b. rewrite Hb', elem_of_union, elem_of_range.
      rewrite (ids_snoc _ _ _ He), elem_of_app, list_elem_of_singleton.
      simpl. intros [Hin|Hr].
      * apply Hb in Hin as [Hr Hnin]. split; [lia|].
        intros [?|?]; [done|lia].
      * split; [lia|]. intros [Hin|?]; [apply Hi in Hin|]; lia.
Qed.

Lemma run_bounded ops s s' m :
  Forall nonneg ops → bounded s m → run ops s = Ok s' → ∃ m', bounded s' m'.
Proof.
  induction ops as [|o ops IH] in s, m |- *; simpl.
  { intros _ ? [= <-]. by exists m. }
  intros [Hnn Hall]%Forall_cons Hbd (s1 & Hstep & Hrun)%bind_Ok.
  destruct (step_bounded _ _ _ _ Hnn Hbd Hstep) as [m1 Hbd1].
  by eapply IH.
Qed.

(** X5. When the reserved ids are not negative, a run of calls of [add]
    and [add_id] from the empty table never leaves a blank that is the id
    of an entry; the ids of the entries lie between 0 and [max_value], and
    the blanks strictly between them. *)
Theorem blanks_are_free ops s :
  Forall nonneg ops →
  run ops init = Ok s →
  (∀ b, b ∈ blanks s → b ∉ ids s)
  ∧ ∃ m, max_value s = Ok m
      ∧ (∀ i, i ∈ ids s → 0 ≤ i ≤ m)
      ∧ (∀ b, b ∈ blanks s → 0 < b < m).
Proof.
  intros Hall Hrun.
  destruct (run_bounded ops init s 0 Hall) as (m & Hm & _ & Hi & Hb);
    [|done|].
  { split_and!; [done|done|by intros ? ?%elem_of_nil|].
    by intros ? ?%elem_of_empty. }
  split; [intros b Hin; by apply Hb in Hin as [_ ?]|].
  exists m. split_and!; [done|done|].
  intros b Hin. by apply Hb in Hin as [? _].
Qed.

Lemma blanks_are_free_witness :
  let ops := [Add smallest "a"; AddId 4 "b"; Add smallest "c"] in
  let s := Mk (MkValues 0 [Entry 0 "a"; Entry 4 "b"; Entry 1 "c"])
              {["a" := 0 + OFFSET; "b" := 4 + OFFSET; "c" := 1 + OFFSET]}
              {[2; 3]} in
  Forall nonneg ops ∧ run ops init = Ok s
  ∧ (∀ b, b ∈ blanks s → b ∉ ids s)
  ∧ ∃ m, max_value s = Ok m
      ∧ (∀ i, i ∈ ids s → 0 ≤ i ≤ m)
      ∧ (∀ b, b ∈ blanks s → 0 < b < m).
Proof.
  assert (Forall nonneg [Add smallest "a"; AddId 4 "b"; Add smallest "c"])
    as Hall by (repeat constructor; simpl; lia).
  assert (run [Add smallest "a"; AddId 4 "b"; Add smallest "c"] init
          = Ok (Mk (MkValues 0 [Entry 0 "a"; Entry 4 "b"; Entry 1 "c"])
                  {["a" := 0 + OFFSET; "b" := 4 + OFFSET; "c" := 1 + OFFSET]}
                  {[2; 3]})) as Hrun by (by vm_compute).
  split; [exact Hall|]. split; [exact Hrun|].
  exact (blanks_are_free _ _ Hall Hrun).
Defined.
End run_facts.

(** ** Writing and reading a table *)

Section serialization.
Implicit Types (s : t) (v : Values) (l : list entry).

Lemma insert_by_head {A} (le : A → A → bool) x (l : list A) :
  Forall (λ y, le x y = true) l → insert_by le x l = x :: l.
Proof. destruct 1 as [|y l Hy _]; simpl; [done|]. by rewrite Hy. Qed.

Lemma sort_by_fixed {A} (le : A → A → bool) (l : list A) :
  StronglySorted (λ x y, le x y = true) l → sort_by le l = l.
Proof.
  induction 1 as [|x l Hs IH Hall]; simpl; [done|].
  rewrite IH. by apply insert_by_head.
Qed.

Lemma sort_by_id_sorted l :
  StronglySorted (λ x y, bool_decide (id x ≤ id y) = true)
    (sort_by (λ x y, bool_decide (id x ≤ id y)) l).
Proof.
  apply sort_by_sorted.
  - intros x y z. rewrite !bool_decide_eq_true. lia.
  - done.
  - intros y z. rewrite bool_decide_eq_false, bool_decide_eq_true. lia.
Qed.

(** X6. [to_tlk] sorts the entries by id and writes them out with the
    language unchanged: what is written holds the same entries in
    ascending order of their ids, entries with the same id in the order
    they had; the table keeps the sorted entries, its cache and its
    blanks; exporting again writes the same. *)
Theorem to_tlk_sorts s :
  ∃ out s', to_tlk s = (out, s')
    ∧ values s' = out
    ∧ existing s' = existing s
    ∧ blanks s' = blanks s
    ∧ language out = language (values s)
    ∧ entries out ≡ₚ entries (values s)
    ∧ StronglySorted (λ x y, id x ≤ id y) (entries out)
    ∧ (∀ i, filter (λ e, id e = i) (entries out)
            = filter (λ e, id e = i) (entries (values s)))
    ∧ to_tlk s' = (out, s').
Proof.
  eexists _, _. split; [done|]. simpl. split_and!; try done.
  - apply sort_by_perm.
  - apply sort_by_sorted.
    + intros x y z ? ?. lia.
    + intros y z. by rewrite bool_decide_eq_true.
    + intros y z. rewrite bool_decide_eq_false. lia.
  - intros i. apply sort_by_filter.
    intros x y -> ->. by apply bool_decide_eq_true.
  - unfold to_tlk. simpl.
    by rewrite (sort_by_fixed _ _ (sort_by_id_sorted _)).
Qed.

Lemma text_to_id_empty l : text_to_id l = ∅ ↔ l = [].
Proof.
  split; [|by intros ->].
  destruct l as [|e l] using rev_ind; [done|].
  unfold text_to_id. rewrite foldl_snoc. intros H.
  by apply insert_non_empty in H.
Qed.

Lemma cached_nil (m : gmap string Z) : cached m = [] ↔ m = ∅.
Proof.
  unfold cached. rewrite <- map_to_list_empty_iff.
  split; [apply fmap_nil_inv|by intros ->].
Qed.

(** X7. [from_json] raises [ValueError] exactly when the document has no
    entry.  Otherwise the table holds the document as it is; the cache
    maps a text to the id of the last entry with that text, without
    [OFFSET]; and the blanks are the integers from 0 up to, but without,
    the largest cached id that no text is cached with. *)
Theorem from_json_outcome v :
  (entries v = [] ∧ from_json v = Raise ValueError)
  ∨ (entries v ≠ []
     ∧ ∃ s top, from_json v = Ok s
         ∧ values s = v
         ∧ (∀ text, existing s !! text
                    = id <$> last (filter (λ e, TLK.text e = text)
                                     (entries v)))
         ∧ (∃ e, e ∈ entries v ∧ id e = top ∧ existing s !! TLK.text e = Some top)
         ∧ (∀ text i, existing s !! text = Some i → i ≤ top)
         ∧ (∀ i, i ∈ blanks s
                 ↔ 0 ≤ i < top ∧ ∀ text, existing s !! text ≠ Some i)).
Proof.
  destruct (decide (entries v = [])) as [He|Hne].
  { left. split; [done|]. unfold from_json. by rewrite He. }
  right. split; [done|]. unfold from_json.
  destruct (py_max (cached (text_to_id (entries v)))) as [top|e] eqn:E.
  2:{ apply py_max_nil_inv, cached_nil, text_to_id_empty in E. done. }
  apply py_max_spec in E as [Hin Hall].
  apply elem_of_cached in Hin as [k Hk].
  eexists _, top. split; [done|]. simpl. split_and!.
  - done.
  - apply text_to_id_last.
  - pose proof Hk as Hk'. rewrite text_to_id_last in Hk'.
    destruct (last _) as [e|] eqn:El; [|done]. injection Hk' as <-.
    apply last_Some_elem_of, list_elem_of_filter in El as [<- Hin].
    by exists e.
  - intros text i Hi. rewrite Forall_forall in Hall. apply Hall.
    apply elem_of_cached. by exists text.
  - intros i. rewrite elem_of_list_to_set, list_elem_of_filter.
    rewrite elem_of_seqZ, elem_of_cached. split.
    + intros [Hn Hr]. split; [lia|]. intros text Ht. apply Hn. by exists text.
    + intros [Hr Hn]. split; [|lia]. intros [text Ht]. by apply (Hn text).
Qed.

(** X8. A document with at least one entry whose texts are distinct
    and whose ids are distinct is read as a table that satisfies the
    occupancy invariant. *)
Theorem hydrated_occupancy v :
  NoDup (TLK.text <$> entries v) → NoDup (id <$> entries v) →
  entries v ≠ [] →
  ∃ s, from_json v = Ok s ∧ occupancy s.
Proof.
  intros Ht Hi Hne.
  destruct (from_json_spec v Ht Hne) as (s & Hs & Hv & Hb).
  exists s. split; [done|]. intros top i Htop Hr.
  specialize (Hb top i Htop). pose proof Htop as [Hin _]%py_max_spec.
  destruct (decide (i ∈ ids s)) as [Hi'|Hi'].
  - left. split; [|rewrite Hb; by intros [_ ?]].
    rewrite (length_filter_fmap id). apply length_filter_NoDup; [|done].
    by rewrite Hv.
  - right. split; [done|]. apply Hb. split; [|done].
    destruct (decide (i = top)) as [->|]; [done|lia].
Qed.

Lemma hydrated_occupancy_witness :
  NoDup (TLK.text <$> entries document) ∧ NoDup (id <$> entries document)
  ∧ entries document ≠ []
  ∧ ∃ s, from_json document = Ok s ∧ occupancy s.
Proof.
  assert (NoDup (TLK.text <$> entries document)) as H1.
  { simpl. apply NoDup_cons. split; [|apply NoDup_singleton].
    by intros ?%list_elem_of_singleton. }
  assert (NoDup (id <$> entries document)) as H2.
  { simpl. apply NoDup_cons. split; [|apply NoDup_singleton].
    by intros ?%list_elem_of_singleton. }
  assert (entries document ≠ []) as H3 by done.
  split; [exact H1|]. split; [exact H2|]. split; [exact H3|].
  exact (hydrated_occupancy document H1 H2 H3).
Defined.

(** X9. In a table read from a document whose ids lie between 0 and
    [OFFSET], [max_value] is negative, since the cached ids are not
    shifted: [add_id] accepts every id that is not negative, whether an
    entry has it or not, and puts every integer between [max_value] and
    the id into the blanks, among them the id of every entry below the
    reserved id. *)
Theorem add_id_on_hydrated v s i text :
  from_json v = Ok s →
  (∀ e, e ∈ entries v → 0 ≤ id e < OFFSET) →
  0 ≤ i →
  ∃ m s', max_value s = Ok m
    ∧ m < 0
    ∧ add_id i text s = Ok (i + OFFSET, s')
    ∧ (∀ x, x ∈ blanks s' ↔ x ∈ blanks s ∨ m < x < i)
    ∧ ∀ e, e ∈ entries v → id e < i → id e ∈ blanks s'.
Proof.
  intros Hs Hids Hi.
  destruct (max_value_total s) as [m Hm]. exists m.
  assert (m < 0) as Hneg.
  { pose proof Hm as [[He _]|[[k Hk] _]]%max_value_spec.
    - unfold from_json in Hs. apply bind_Ok in Hs as (top & Htop & [= <-]).
      simpl in He. by rewrite He in Htop.
    - unfold from_json in Hs. apply bind_Ok in Hs as (top & Htop & [= <-]).
      simpl in Hk. rewrite text_to_id_last in Hk.
      destruct (last _) as [e|] eqn:El; [|done]. injection Hk as Hk.
      apply last_Some_elem_of, list_elem_of_filter in El as [_ Hin].
      apply Hids in Hin. lia. }
  destruct (add_id_above i text s m Hm) as (s' & Hadd & _ & _ & Hb); [lia|].
  exists s'. split_and!; try done.
  intros e He Hlt. apply Hb. right. apply Hids in He. lia.
Qed.

Lemma add_id_on_hydrated_witness :
  from_json document = Ok hydrated
  ∧ ∃ m s', max_value hydrated = Ok m
      ∧ m < 0
      ∧ add_id 1 "C" hydrated = Ok (1 + OFFSET, s')
      ∧ (∀ x, x ∈ blanks s' ↔ x ∈ blanks hydrated ∨ m < x < 1)
      ∧ ∀ e, e ∈ entries document → id e < 1 → id e ∈ blanks s'.
Proof.
  split; [exact from_json_document|].
  refine (add_id_on_hydrated document hydrated 1 "C" from_json_document _ _).
  - intros e He. simpl in He.
    apply elem_of_cons in He as [->|He];
      [|apply list_elem_of_singleton in He as ->]; simpl; unfold OFFSET; lia.
  - lia.
Defined.
End serialization.

(** ** Suffix rules of the derived labels *)

Section suffix_rules.
Implicit Types (pre text suf : string) (c d : Ascii.ascii).

Lemma length_append pre text :
  String.length (pre +:+ text) = (String.length pre + String.length text)%nat.
Proof. induction pre as [|a pre IH]; simpl; [done|]. by rewrite IH. Qed.

Lemma substring_append_r pre text k :
  String.substring (String.length pre) k (pre +:+ text)
  = String.substring 0 k text.
Proof. induction pre as [|a pre IH]; simpl; [done|]. apply IH. Qed.

Lemma substring_append_l pre text :
  String.substring 0 (String.length pre) (pre +:+ text) = pre.
Proof.
  induction pre as [|a pre IH]; simpl; [by destruct text|]. by rewrite IH.
Qed.

Lemma substring_all text k :
  (String.length text ≤ k)%nat → String.substring 0 k text = text.
Proof.
  induction text as [|a text IH] in k |- *; simpl; [by destruct k|].
  destruct k as [|k]; [lia|]. intros ?. rewrite IH; [done|lia].
Qed.

Lemma get_append_r pre text :
  String.get (String.length pre) (pre +:+ text) = String.get 0 text.
Proof. induction pre as [|a pre IH]; simpl; [done|]. apply IH. Qed.

Lemma append_assoc pre text text' :
  (pre +:+ text) +:+ text' = pre +:+ text +:+ text'.
Proof.
  induction pre as [|a pre IH]; [done|].
  change (String a ((pre +:+ text) +:+ text')
          = String a (pre +:+ text +:+ text')).
  by f_equal.
Qed.

Lemma append_snoc pre d text :
  (pre +:+ String d "") +:+ text = pre +:+ String d text.
Proof. by rewrite append_assoc. Qed.

Lemma string_snoc_cases pre :
  pre = "" ∨ ∃ pre' d, pre = pre' +:+ String d "".
Proof.
  induction pre as [|a pre IH]; [by left|]. right.
  destruct IH as [->|(pre' & d & ->)].
  - by exists "", a.
  - by exists (String a pre'), d.
Qed.

(** The slices of a text that ends with the text [suf]. *)
Lemma slice_last_append pre suf :
  slice_last (String.length suf) (pre +:+ suf) = suf.
Proof.
  unfold slice_last. rewrite length_append.
  replace (String.length pre + String.length suf - String.length suf)%nat
    with (String.length pre) by lia.
  rewrite substring_append_r. by apply substring_all.
Qed.

Lemma slice_but_last_append pre suf :
  slice_but_last (String.length suf) (pre +:+ suf) = pre.
Proof.
  unfold slice_but_last. rewrite length_append.
  replace (String.length pre + String.length suf - String.length suf)%nat
    with (String.length pre) by lia.
  apply substring_append_l.
Qed.

Lemma item_from_end_1 pre c :
  item_from_end 1 (pre +:+ String c "") = Ok (String c "").
Proof.
  unfold item_from_end. rewrite length_append. simpl.
  rewrite bool_decide_eq_true_2 by lia.
  replace (String.length pre + 1 - 1)%nat with (String.length pre) by lia.
  by rewrite get_append_r.
Qed.

Lemma item_from_end_2 pre d c :
  item_from_end 2 (pre +:+ String d (String c "")) = Ok (String d "").
Proof.
  unfold item_from_end. rewrite length_append. simpl.
  rewrite bool_decide_eq_true_2 by lia.
  replace (String.length pre + 2 - 2)%nat with (String.length pre) by lia.
  by rewrite get_append_r.
Qed.

Lemma slice_last_2 pre d c :
  slice_last 2 (pre +:+ String d (String c "")) = String d (String c "").
Proof. exact (slice_last_append pre (String d (String c ""))). Qed.

Lemma slice_but_last_2 pre d c :
  slice_but_last 2 (pre +:+ String d (String c "")) = pre.
Proof. exact (slice_but_last_append pre (String d (String c ""))). Qed.

Lemma slice_but_last_1 pre c : slice_but_last 1 (pre +:+ String c "") = pre.
Proof. exact (slice_but_last_append pre (String c "")). Qed.

Lemma str_in_vowels c :
  str_in (String c "") "aeiou" = bool_decide (c ∈ vowels).
Proof.
  unfold vowels. simpl.
  repeat (destruct (Ascii.ascii_dec c _) as [->|?]; [done|]).
  simpl. symmetry. apply bool_decide_eq_false.
  rewrite !not_elem_of_cons. split_and!; try done. apply not_elem_of_nil.
Qed.

Lemma plural_fe pre : dynamic_plural (pre +:+ "fe") = Ok (pre +:+ "ves").
Proof.
  unfold dynamic_plural. rewrite slice_last_2. simpl.
  by rewrite slice_but_last_2.
Qed.

Lemma plural_f pre : dynamic_plural (pre +:+ "f") = Ok (pre +:+ "ves").
Proof.
  unfold dynamic_plural. unfold matches at 1.
  assert (matches (PValue "fe") (slice_last 2 (pre +:+ "f")) = false) as ->.
  { destruct (string_snoc_cases pre) as [->|(pre' & d & ->)]; [done|].
    rewrite append_snoc, slice_last_2.
    simpl. by destruct (Ascii.eqb d _). }
  rewrite (item_from_end_1 pre). simpl.
  rewrite slice_but_last_1.
  by destruct (String.eqb _ "lf").
Qed.

Lemma plural_y pre c :
  dynamic_plural (pre +:+ String c "y")
  = Ok (pre +:+ String c (if bool_decide (c ∈ vowels) then "ys" else "ies")).
Proof.
  unfold dynamic_plural.
  rewrite slice_last_2.
  assert (matches (PValue "fe") (String c "y") = false) as ->
    by (simpl; by destruct (Ascii.eqb c _)).
  assert (matches (PValue "lf") (String c "y") = false) as ->
    by (simpl; by destruct (Ascii.eqb c _)).
  rewrite item_from_end_2.
  rewrite <- (append_snoc pre c "y"), item_from_end_1.
  with_strategy opaque [str_in] simpl.
  rewrite str_in_vowels. destruct (bool_decide (c ∈ vowels)); simpl.
  - by rewrite !append_snoc.
  - rewrite slice_but_last_1. by rewrite append_snoc.
Qed.

Lemma plural_other pre c :
  String c "" ≠ "f" → String c "" ≠ "y" →
  (∀ pre', pre +:+ String c "" ≠ pre' +:+ "fe") →
  dynamic_plural (pre +:+ String c "") = Ok ((pre +:+ String c "") +:+ "s").
Proof.
  intros Hf Hy Hfe. unfold dynamic_plural. unfold matches at 1.
  assert (∀ d, slice_last 2 (pre +:+ String c "") ≠ String d "f") as Hlf.
  { intros d. destruct (string_snoc_cases pre) as [->|(pre' & d' & ->)].
    - simpl. by intros [= -> ].
    - rewrite append_snoc, slice_last_2. intros [= -> ->]. done. }
  assert (slice_last 2 (pre +:+ String c "") ≠ "fe") as Hne.
  { destruct (string_snoc_cases pre) as [->|(pre' & d' & ->)]; [done|].
    rewrite append_snoc, slice_last_2.
    intros [= -> ->]. apply (Hfe pre'). by rewrite append_snoc. }
  simpl. apply String.eqb_neq in Hne as ->.
  destruct (String.eqb_spec (slice_last 2 (pre +:+ String c "")) "lf")
    as [Heq|_]; [by apply Hlf in Heq|].
  rewrite item_from_end_1. with_strategy opaque [String.eqb] simpl.
  apply String.eqb_neq in Hf as ->. by apply String.eqb_neq in Hy as ->.
Qed.

(** X10. The pluralizer by the ending of the word: "fe" is replaced by
    "ves" and a final "f" by "ves"; a final "y" becomes "ies" unless the
    letter before it is one of a, e, i, o, u, in which case an "s" is
    added; every other word that is not empty only gets an "s", also one
    that ends in "ch", "is", "sh", "s", "x", "z" or "o".  The word "y" and
    the empty word raise [IndexError]. *)
Theorem dynamic_plural_rules pre c :
  dynamic_plural (pre +:+ "fe") = Ok (pre +:+ "ves")
  ∧ dynamic_plural (pre +:+ "f") = Ok (pre +:+ "ves")
  ∧ dynamic_plural (pre +:+ String c "y")
    = Ok (pre +:+ String c (if bool_decide (c ∈ vowels) then "ys" else "ies"))
  ∧ (String c "" ≠ "f" → String c "" ≠ "y" →
     (∀ pre', pre +:+ String c "" ≠ pre' +:+ "fe") →
     dynamic_plural (pre +:+ String c "") = Ok ((pre +:+ String c "") +:+ "s"))
  ∧ dynamic_plural "y" = Raise IndexError
  ∧ dynamic_plural "" = Raise IndexError.
Proof.
  split_and!; [apply plural_fe|apply plural_f|apply plural_y|
               apply plural_other|done|done].
Qed.

(** X11. The adjective form replaces a final "f" by "ven" and leaves
    every other word that is not empty as it is; the empty word raises
    [IndexError]. *)
Theorem dynamic_adjective_rules pre c :
  dynamic_adjective (pre +:+ "f") = Ok (pre +:+ "ven")
  ∧ (String c "" ≠ "f" →
     dynamic_adjective (pre +:+ String c "") = Ok (pre +:+ String c ""))
  ∧ dynamic_adjective "" = Raise IndexError.
Proof.
  unfold dynamic_adjective. split_and!.
  - rewrite item_from_end_1. simpl. by rewrite slice_but_last_1.
  - intros Hf. rewrite item_from_end_1.
    with_strategy opaque [String.eqb] simpl.
    by apply String.eqb_neq in Hf as ->.
  - done.
Qed.
End suffix_rules.

(** ** The labels that the warning lists *)

Section warning_facts.
Import IOHelper.
Context {R : Type}.
Implicit Types (df : list (Z * R)) (idx : list Z) (mask : list bool).

Lemma mask_select_snoc {A} mask (xs : list A) b x :
  length mask = length xs →
  mask_select (mask ++ [b]) (xs ++ [x])
  = mask_select mask xs ++ (if b then [x] else []).
Proof.
  intros Hlen. unfold mask_select.
  rewrite zip_with_app by done. rewrite filter_app, fmap_app. f_equal.
  simpl. rewrite filter_cons. by destruct b.
Qed.

Lemma length_duplicated_last idx :
  length (duplicated_last idx) = length idx.
Proof. induction idx as [|i idx IH]; simpl; [done|]. by rewrite IH. Qed.

Lemma length_duplicated idx : length (duplicated idx) = length idx.
Proof.
  unfold duplicated.
  by rewrite length_reverse, length_duplicated_last, length_reverse.
Qed.

Lemma duplicated_snoc idx i :
  duplicated (idx ++ [i]) = duplicated idx ++ [bool_decide (i ∈ idx)].
Proof.
  unfold duplicated. rewrite reverse_snoc. simpl. rewrite reverse_cons.
  f_equal. f_equal. apply bool_decide_ext. by rewrite elem_of_reverse.
Qed.

(** A label is listed once for each of its rows but the first. *)
Lemma count_duplicated idx i :
  length (filter (λ x, x = i) (mask_select (duplicated idx) idx))
  = pred (length (filter (λ x, x = i) idx)).
Proof.
  induction idx as [|j idx IH] using rev_ind; [done|].
  rewrite duplicated_snoc, mask_select_snoc by apply length_duplicated.
  rewrite !filter_app, !length_app, IH, filter_cons, filter_nil.
  destruct (decide (j = i)) as [->|Hne].
  - destruct (decide (i ∈ idx)) as [Hin|Hin].
    + rewrite bool_decide_eq_true_2 by done.
      rewrite filter_cons, decide_True by done. simpl.
      assert (i ∈ filter (λ x, x = i) idx) as Hin'
        by by apply list_elem_of_filter.
      destruct (filter (λ x, x = i) idx); [by apply elem_of_nil in Hin'|].
      simpl. lia.
    + rewrite bool_decide_eq_false_2 by done.
      rewrite (filter_eq_not_elem_of idx i Hin). done.
  - simpl. destruct (bool_decide (j ∈ idx)); simpl.
    + rewrite filter_cons, decide_False by done. simpl. lia.
    + simpl. lia.
Qed.

Lemma length_mask_select {A} mask (xs : list A) :
  length mask = length xs →
  length (mask_select mask xs) = length (filter (λ b, b = true) mask).
Proof.
  revert xs. induction mask as [|b mask IH]; intros [|x xs] Hlen;
    try done.
  injection Hlen as Hlen. rewrite mask_select_cons, filter_cons.
  destruct b; simpl; by rewrite IH.
Qed.

Lemma count_duplicated_last idx :
  (length (filter (λ b, b = true) (duplicated_last idx))
   + size (list_to_set idx : gset Z) = length idx)%nat.
Proof.
  induction idx as [|i idx IH]; [done|]. simpl.
  rewrite filter_cons. destruct (decide (i ∈ idx)) as [Hin|Hin].
  - rewrite bool_decide_eq_true_2 by done. simpl.
    assert ({[i]} ∪ list_to_set idx = (list_to_set idx : gset Z)) as ->.
    { apply set_eq. intros x. rewrite elem_of_union, elem_of_singleton.
      rewrite elem_of_list_to_set. split; [intros [->|?]; done|by right]. }
    lia.
  - rewrite bool_decide_eq_false_2 by done. simpl.
    rewrite size_union, size_singleton.
    + lia.
    + apply disjoint_singleton_l. by rewrite elem_of_list_to_set.
Qed.

Lemma count_duplicated_first idx :
  (length (filter (λ b, b = true) (duplicated idx))
   + size (list_to_set idx : gset Z) = length idx)%nat.
Proof.
  unfold duplicated. rewrite reverse_Permutation.
  pose proof (count_duplicated_last (reverse idx)) as H.
  rewrite length_reverse in H.
  assert (list_to_set (reverse idx) = (list_to_set idx : gset Z)) as Hset.
  { apply set_eq. intros x. by rewrite !elem_of_list_to_set, elem_of_reverse. }
  by rewrite Hset in H.
Qed.

Lemma count_not_duplicated_last idx :
  length (filter (λ b, b = true) (negb <$> duplicated_last idx))
  = size (list_to_set idx : gset Z).
Proof.
  induction idx as [|i idx IH]; [done|].
  change (duplicated_last (i :: idx))
    with (bool_decide (i ∈ idx) :: duplicated_last idx).
  rewrite fmap_cons, list_to_set_cons, filter_cons.
  destruct (decide (i ∈ idx)) as [Hin|Hin].
  - rewrite bool_decide_eq_true_2 by done. cbn [negb].
    rewrite decide_False by done. rewrite IH.
    f_equal. apply set_eq. intros x.
    rewrite elem_of_union, elem_of_singleton, elem_of_list_to_set.
    split; [by right|intros [->|?]; done].
  - rewrite bool_decide_eq_false_2 by done. cbn [negb].
    rewrite decide_True by done. cbn [length]. rewrite IH.
    rewrite size_union, size_singleton; [done|].
    apply disjoint_singleton_l. by rewrite elem_of_list_to_set.
Qed.

(** X12. When the warning of [read_labels] is printed, it lists a label
    once for each of its records but the first: the labels listed are
    those that at least two records of the file carry, and as many labels
    are listed as records are dropped. *)
Theorem read_labels_warning df printed :
  (read_labels df false).2 = Some printed →
  (∀ i, length (filter (λ x, x = i) printed)
        = pred (length (filter (λ p, p.1 = i) df)))
  ∧ (∀ i, i ∈ printed ↔ (2 ≤ length (filter (λ p, p.1 = i) df))%nat)
  ∧ (length (read_labels df false).1 + length printed = length df)%nat.
Proof.
  unfold read_labels. simpl. set (idx := (sort_index df).*1).
  destruct (existsb _ _) eqn:E; simpl; [|done]. intros [= <-].
  assert (∀ i, length (filter (λ x, x = i) (mask_select (duplicated idx) idx))
               = pred (length (filter (λ p, p.1 = i) df))) as Hcount.
  { intros i. rewrite count_duplicated. unfold idx.
    rewrite <- (length_filter_fmap fst). by rewrite (sort_index_perm df). }
  split; [done|]. split.
  - intros i. specialize (Hcount i). split.
    + intros Hin.
      assert (i ∈ filter (λ x, x = i) (mask_select (duplicated idx) idx))
        as Hin' by by apply list_elem_of_filter.
      destruct (filter _ (mask_select _ _)); [by apply elem_of_nil in Hin'|].
      simpl in Hcount. lia.
    + intros Hle.
      destruct (filter (λ x, x = i) (mask_select (duplicated idx) idx))
        as [|x l] eqn:Ef; [simpl in Hcount; lia|].
      assert (x ∈ filter (λ x, x = i) (mask_select (duplicated idx) idx))
        as [-> ?]%list_elem_of_filter by (rewrite Ef; left).
      done.
  - rewrite !length_mask_select.
    + rewrite count_not_duplicated_last.
      pose proof (count_duplicated_first idx) as H.
      assert (length idx = length df) as Hl.
      { unfold idx. rewrite length_fmap.
        apply Permutation_length, sort_index_perm. }
      lia.
    + apply length_duplicated.
    + rewrite length_fmap, length_duplicated_last. unfold idx.
      by rewrite length_fmap.
Qed.
End warning_facts.

Lemma read_labels_warning_witness :
  let df := [(2, "x"); (1, "y"); (2, "z"); (2, "w")] in
  (IOHelper.read_labels df false).2 = Some [2; 2]
  ∧ (∀ i, length (filter (λ x, x = i) [2; 2])
          = pred (length (filter (λ p, p.1 = i) df)))
  ∧ (∀ i, i ∈ [2; 2] ↔ (2 ≤ length (filter (λ p, p.1 = i) df))%nat)
  ∧ (length (IOHelper.read_labels df false).1 + length [2; 2]
     = length df)%nat.
Proof.
  assert ((IOHelper.read_labels
             [(2, "x"); (1, "y"); (2, "z"); (2, "w")] false).2
          = Some [2; 2]) as H by (by vm_compute).
  split; [exact H|].
  exact (read_labels_warning [(2, "x"); (1, "y"); (2, "z"); (2, "w")]
           [2; 2] H).
Defined.

(** ** Merges that return, and merges one after the other *)

Section merge_outcomes.
Implicit Types (s : t) (pop : popper) (df_2da : DataFrame value)
  (df_json rj : DataFrame (option string)) (name column text : string).

Lemma series_map_add_total pop col s :
  ∃ out s', series_map_add pop col s = Ok (out, s').
Proof.
  induction col as [|[text|] col IH] in s |- *; simpl.
  - by eexists _, _.
  - destruct (add_total pop text s) as (v & s1 & Hadd & _).
    rewrite Hadd. simpl.
    destruct (IH s1) as (out & s2 & Hrec). rewrite Hrec. by eexists _, _.
  - destruct (IH s) as (out & s2 & Hrec). rewrite Hrec. by eexists _, _.
Qed.

Lemma columns_map_add_total pop cols s :
  ∃ outs s', columns_map_add pop cols s = Ok (outs, s').
Proof.
  induction cols as [|[name col] cols IH] in s |- *; simpl.
  - by eexists _, _.
  - destruct (series_map_add_total pop col s) as (out & s1 & Hcol).
    rewrite Hcol. simpl.
    destruct (IH s1) as (outs & s2 & Hrec). rewrite Hrec. by eexists _, _.
Qed.

Lemma run_prefix ops s s' :
  run ops s = Ok s' → entries (values s) `prefix_of` entries (values s').
Proof.
  induction ops as [|o ops IH] in s |- *; simpl.
  { by intros [= <-]. }
  intros (s1 & Hstep & Hrun)%bind_Ok. etrans; [|by apply IH].
  apply step_entries in Hstep as [->|[i ->]]; [done|].
  by apply prefix_app_r.
Qed.

Lemma names_restrict {A} (df : DataFrame A) keep column :
  column ∈ names (restrict df keep) ↔ column ∈ names df ∧ column ∈ keep.
Proof.
  unfold names, restrict. simpl. rewrite !list_elem_of_fmap. split.
  - intros ([c col] & -> & [Hk Hin]%list_elem_of_filter).
    split; [by exists (c, col)|done].
  - intros [([c col] & -> & Hin) Hk]. exists (c, col). split; [done|].
    by apply list_elem_of_filter.
Qed.

(** The general rule, seen from the cells of the merged table. *)
Lemma general_merge_cells pop name offset df_2da df_json s merged s' :
  name ≠ "spells" →
  add_2da_labels pop name offset df_2da df_json s = Ok (merged, s') →
  entries (values s) `prefix_of` entries (values s')
  ∧ (∀ text z, existing s !! text = Some z → existing s' !! text = Some z)
  ∧ ∀ j column new k v text,
      columns merged !! j = Some (column, new) → new !! k = Some v →
      label_for df_2da df_json column k = Some text →
      cached_ref s' text v.
Proof.
  intros Hname H. unfold add_2da_labels in H.
  set (rj := restrict df_json (names df_2da)) in *.
  destruct (empty_frame rj) eqn:Eempty.
  { injection H as <- <-. split; [done|]. split; [done|].
    intros j column new k v text Hj Hk Hl.
    rewrite <- (label_for_restrict df_2da df_json) in Hl
      by by eapply lookup_names.
    unfold label_for in Hl. destruct (index df_2da !! k); [simpl in Hl|done].
    by rewrite empty_frame_override in Hl. }
  rewrite bool_decide_eq_false_2 in H by done.
  apply bind_Ok in H as ([cols s1] & Hmap & H).
  apply bind_Ok in H as (d1 & Hupd & [= <- <-]).
  destruct (columns_map_add_spec _ (index rj) _ _ _ _ Hmap)
    as ((ops & Hrun & _) & Hkeep & _).
  split; [by eapply run_prefix|]. split; [done|].
  intros j column new k v text Hj Hk Hl.
  destruct (update_spec _ _ _ Hupd) as (_ & Hnm & _).
  destruct (merge_general _ _ _ _ _ _ _ Hmap Hupd j column new k v Hj Hk)
    as (this & old & Hthis & _ & Hv).
  rewrite <- (label_for_restrict df_2da df_json) in Hl
    by by eapply lookup_names.
  fold rj in Hl. by rewrite Hl in Hv.
Qed.

(** X13. A merge under the general rule returns when the rows of the
    label frame have distinct labels: the merged table has the rows and
    columns of the category table, the string table keeps every entry it
    had, in place, with new entries after them, and every text keeps the
    id it was cached with.  When the label frame has no rows or shares no
    column with the table, the table and the string table are returned as
    they were. *)
Theorem general_merge_returns pop name offset df_2da df_json s :
  name ≠ "spells" → NoDup (index df_json) →
  ∃ merged s',
    add_2da_labels pop name offset df_2da df_json s = Ok (merged, s')
    ∧ index merged = index df_2da
    ∧ names merged = names df_2da
    ∧ entries (values s) `prefix_of` entries (values s')
    ∧ (∀ text z, existing s !! text = Some z → existing s' !! text = Some z)
    ∧ (index df_json = [] ∨ (∀ column, column ∈ names df_json →
                                        column ∉ names df_2da) →
       merged = df_2da ∧ s' = s).
Proof.
  intros Hname Hnd.
  assert (∃ merged s',
    add_2da_labels pop name offset df_2da df_json s = Ok (merged, s')
    ∧ index merged = index df_2da ∧ names merged = names df_2da
    ∧ (empty_frame (restrict df_json (names df_2da)) = true →
       merged = df_2da ∧ s' = s)) as (merged & s' & H & Hidx & Hnm & Hempty).
  { unfold add_2da_labels.
    destruct (empty_frame _) eqn:Eempty; [by eexists _, _|].
    rewrite bool_decide_eq_false_2 by done.
    destruct (columns_map_add_total pop
                (columns (restrict df_json (names df_2da))) s)
      as (cols & s1 & Hmap). rewrite Hmap. simpl.
    destruct (update df_2da _) as [d1|e] eqn:Hupd.
    - apply update_spec in Hupd as (? & ? & _). by eexists _, _.
    - unfold update in Hupd. simpl in Hupd.
      by rewrite bool_decide_eq_true_2 in Hupd. }
  exists merged, s'. split; [done|]. split; [done|]. split; [done|].
  destruct (general_merge_cells _ _ _ _ _ _ _ _ Hname H) as (Hpre & Hkeep & _).
  split; [done|]. split; [done|].
  intros Hnone. apply Hempty. unfold empty_frame. apply orb_true_iff.
  destruct Hnone as [Hnil|Hcols].
  - left. by apply bool_decide_eq_true.
  - right. apply bool_decide_eq_true.
    destruct (names (restrict df_json (names df_2da))) as [|c l] eqn:E;
      [done|].
    assert (c ∈ names (restrict df_json (names df_2da))) as Hin
      by (rewrite E; left).
    apply names_restrict in Hin as [Hin1 Hin2]. by apply Hcols in Hin1.
Qed.

Lemma general_merge_returns_witness :
  "feat" ≠ "spells" ∧ NoDup (index feat_labels)
  ∧ ∃ merged s',
      add_2da_labels smallest "feat" 5000 feat_2da feat_labels init
      = Ok (merged, s')
      ∧ index merged = index feat_2da
      ∧ names merged = names feat_2da
      ∧ entries (values init) `prefix_of` entries (values s')
      ∧ (∀ text z, existing init !! text = Some z →
                   existing s' !! text = Some z)
      ∧ (index feat_labels = []
         ∨ (∀ column, column ∈ names feat_labels →
                      column ∉ names feat_2da) →
         merged = feat_2da ∧ s' = init).
Proof.
  assert ("feat" ≠ "spells") as H1 by done.
  assert (NoDup (index feat_labels)) as H2.
  { simpl. apply NoDup_cons. split; [|apply NoDup_singleton].
    by intros ?%list_elem_of_singleton. }
  split; [exact H1|]. split; [exact H2|].
  exact (general_merge_returns smallest "feat" 5000 feat_2da feat_labels init
           H1 H2).
Defined.

(** X16. Two merges under the general rule, one after the other on the
    same string table: cells of the two merged tables whose labels are the
    same text hold the same id, the one the string table caches for that
    text. *)
Theorem shared_label_shares_id pop1 pop2 name1 name2 offset1 offset2
    df1 df2 json1 json2 s s1 s2 merged1 merged2 :
  name1 ≠ "spells" → name2 ≠ "spells" →
  add_2da_labels pop1 name1 offset1 df1 json1 s = Ok (merged1, s1) →
  add_2da_labels pop2 name2 offset2 df2 json2 s1 = Ok (merged2, s2) →
  ∀ j1 column1 new1 k1 v1 j2 column2 new2 k2 v2 text,
    columns merged1 !! j1 = Some (column1, new1) → new1 !! k1 = Some v1 →
    columns merged2 !! j2 = Some (column2, new2) → new2 !! k2 = Some v2 →
    label_for df1 json1 column1 k1 = Some text →
    label_for df2 json2 column2 k2 = Some text →
    v1 = v2 ∧ cached_ref s2 text v2.
Proof.
  intros Hn1 Hn2 H1 H2 j1 column1 new1 k1 v1 j2 column2 new2 k2 v2 text
    Hj1 Hk1 Hj2 Hk2 Hl1 Hl2.
  destruct (general_merge_cells _ _ _ _ _ _ _ _ Hn1 H1) as (_ & _ & Hc1).
  destruct (general_merge_cells _ _ _ _ _ _ _ _ Hn2 H2) as (_ & Hkeep & Hc2).
  destruct (Hc1 _ _ _ _ _ _ Hj1 Hk1 Hl1) as (z1 & -> & Hz1).
  destruct (Hc2 _ _ _ _ _ _ Hj2 Hk2 Hl2) as (z2 & -> & Hz2).
  apply Hkeep in Hz1. rewrite Hz1 in Hz2. injection Hz2 as <-.
  split; [done|]. by exists z1.
Qed.
Lemma shared_label_shares_id_witness :
  let skills := Frame [0] [("Name", [Str "****"])] in
  let labels := Frame [0] [("Name", [Some "Alertness"])] in
  let merged := Frame [0] [("Name", [Num (0 + OFFSET)])] in
  add_2da_labels smallest "feat" 5000 feat_2da feat_labels init
  = Ok (feat_merged, feat_table)
  ∧ add_2da_labels smallest "skills" 5000 skills labels feat_table
    = Ok (merged, feat_table)
  ∧ Num (0 + OFFSET) = Num (0 + OFFSET)
  ∧ cached_ref feat_table "Alertness" (Num (0 + OFFSET)).
Proof.
  assert (add_2da_labels smallest "feat" 5000 feat_2da feat_labels init
          = Ok (feat_merged, feat_table)) as H1 by (vm_compute; reflexivity).
  assert (add_2da_labels smallest "skills" 5000
            (Frame [0] [("Name", [Str "****"])])
            (Frame [0] [("Name", [Some "Alertness"])]) feat_table
          = Ok (Frame [0] [("Name", [Num (0 + OFFSET)])], feat_table)) as H2
    by (vm_compute; reflexivity).
  split; [exact H1|]. split; [exact H2|].
  assert ("feat" ≠ "spells") as Hn1 by done.
  assert ("skills" ≠ "spells") as Hn2 by done.
  exact (shared_label_shares_id smallest smallest "feat" "skills" 5000 5000
           feat_2da (Frame [0] [("Name", [Str "****"])])
           feat_labels (Frame [0] [("Name", [Some "Alertness"])])
           init feat_table feat_table feat_merged
           (Frame [0] [("Name", [Num (0 + OFFSET)])]) Hn1 Hn2 H1 H2
           1%nat "FEAT" [Num (0 + OFFSET); Str "****"] 0%nat
           (Num (0 + OFFSET))
           0%nat "Name" [Num (0 + OFFSET)] 0%nat (Num (0 + OFFSET))
           "Alertness" eq_refl eq_refl eq_refl eq_refl eq_refl eq_refl).
Defined.
End merge_outcomes.

(** ** Static reservations *)

Section static_reservations.
Implicit Types (s : t) (rj df_json : DataFrame (option string))
  (df_ids : DataFrame (option Z)) (column text : string)
  (calls : list (Z * string * Z)).

Lemma filter_zip_absent {A} (idx : list Z) (col : list A) r :
  r ∉ idx → filter (λ p, p.1 = r) (zip idx col) = [].
Proof.
  induction idx as [|i idx IH] in col |- *; intros Hr; [done|].
  destruct col as [|x col]; [done|].
  apply not_elem_of_cons in Hr as [Hne Hr]. simpl. rewrite filter_cons.
  simpl. rewrite decide_False by done. by apply IH.
Qed.

Lemma filter_zip_NoDup {A} (idx : list Z) (col : list A) k r c :
  NoDup idx → idx !! k = Some r → col !! k = Some c →
  filter (λ p, p.1 = r) (zip idx col) = [(r, c)].
Proof.
  intros Hnd. revert k col.
  induction Hnd as [|i idx Hi Hnd IH]; intros k col Hk Hc; [done|].
  destruct col as [|x col]; [by destruct k|].
  simpl. rewrite filter_cons. simpl. destruct k as [|k]; simpl in *.
  - injection Hk as ->. injection Hc as ->.
    rewrite decide_True by done. f_equal. by apply filter_zip_absent.
  - rewrite decide_False; [by eapply IH|].
    intros ->. apply Hi. by eapply list_elem_of_lookup_2.
Qed.

(** The text that [at] finds is the label of the row. *)
Lemma at_override rj r column text :
  at_ rj r column = Ok text → override rj r column = Some text.
Proof.
  unfold at_, override. destruct (getcol rj column) as [col|]; [simpl|done].
  generalize (index rj). intros idx.
  induction idx as [|i idx IH] in col |- *; [done|].
  destruct col as [|c col]; [done|]. simpl. rewrite filter_cons. simpl.
  destruct (decide (i = r)) as [->|Hne].
  - rewrite bool_decide_eq_true_2 by done.
    destruct (filter _ (zip idx col)); [|by destruct c].
    destruct c; [by intros [= ->]|done].
  - rewrite bool_decide_eq_false_2 by done. apply IH.
Qed.

(** Reservations in ascending order above [max_value], each for a cell
    that [at] finds, are all made. *)
Lemma all_add_id_ascending rj calls s m :
  max_value s = Ok m →
  StronglySorted Z.lt (m :: calls.*2) →
  Forall (λ c, c.2 + OFFSET ≠ 0
               ∧ ∃ text, at_ rj c.1.1 c.1.2 = Ok text) calls →
  ∃ s' es, all_add_id rj calls s = Ok s'
    ∧ entries (values s') = entries (values s) ++ es
    ∧ Forall2 (λ e c, id e = c.2 ∧ override rj c.1.1 c.1.2 = Some (TLK.text e))
        es calls
    ∧ max_value s' = Ok (default m (last calls.*2)).
Proof.
  induction calls as [|[[r column] i] calls IH] in s, m |- *;
    intros Hm Hs Hall.
  { exists s, []. simpl. rewrite (right_id_L [] (++)).
    split_and!; [done|done|constructor|done]. }
  rewrite fmap_cons in Hs. cbn [snd] in Hs.
  apply StronglySorted_inv in Hs as [Hs Hlt].
  apply Forall_cons in Hlt as [Hlt _].
  apply Forall_cons in Hall as [[Hnz [text Hat]] Hall]. simpl in Hnz, Hat.
  destruct (add_id_above i text s m Hm Hlt) as (s1 & Hadd & He1 & Hm1 & _).
  destruct (IH s1 i Hm1 Hs Hall) as (s' & es & Hrun & He & HF & Hm').
  exists s', (Entry i text :: es). split_and!.
  - simpl. rewrite Hat. simpl. rewrite Hadd. simpl.
    by rewrite bool_decide_eq_false_2.
  - rewrite He, He1, <- (assoc_L (++)). done.
  - constructor; [|done]. simpl. split; [done|]. by apply at_override.
  - rewrite Hm', fmap_cons. cbn [snd]. rewrite last_cons.
    by destruct (last calls.*2).
Qed.

(** Rows in ascending order whose blocks of ids do not overlap yield ids
    in ascending order. *)
Lemma mjoin_imap_sorted (f : nat → Z → list (Z * string * Z))
    (lo hi : Z → Z) (idx : list Z) :
  (∀ r r', r < r' → hi r < lo r') →
  StronglySorted Z.lt idx →
  (∀ k r, idx !! k = Some r →
     StronglySorted Z.lt (f k r).*2
     ∧ Forall (λ i, lo r ≤ i ≤ hi r) (f k r).*2) →
  StronglySorted Z.lt (mjoin (imap f idx)).*2.
Proof.
  intros Hgap Hs. induction Hs as [|r idx Hs IH Hall] in f |- *; intros Hf.
  { constructor. }
  rewrite imap_cons. simpl. rewrite fmap_app.
  apply StronglySorted_app. split_and!.
  - intros x1 x2 Hx1 Hx2.
    destruct (Hf 0%nat r eq_refl) as [_ Hr]. rewrite Forall_forall in Hr.
    apply Hr in Hx1.
    apply list_elem_of_fmap in Hx2 as (c & -> & Hc).
    apply list_elem_of_join in Hc as (l & Hc & Hl).
    apply elem_of_lookup_imap in Hl as (k & r' & -> & Hk).
    destruct (Hf (S k) r' Hk) as [_ Hr']. rewrite Forall_forall in Hr'.
    assert (c.2 ∈ (f (S k) r').*2) as Hc2 by by apply list_elem_of_fmap_2.
    apply Hr' in Hc2. rewrite Forall_forall in Hall.
    assert (r < r') as Hlt by (apply Hall; by eapply list_elem_of_lookup_2).
    specialize (Hgap _ _ Hlt). lia.
  - by destruct (Hf 0%nat r eq_refl).
  - apply IH. intros k r' Hk. by apply (Hf (S k)).
Qed.

Lemma StronglySorted_lt_NoDup (idx : list Z) :
  StronglySorted Z.lt idx → NoDup idx.
Proof.
  induction 1 as [|r idx Hs IH Hall]; constructor; [|done].
  intros Hin. rewrite Forall_forall in Hall. apply Hall in Hin. lia.
Qed.

(** A cell of a static column that holds an id. *)
Lemma static_cell offset (n : Z) (i : nat) idx (col : list (option string))
    k r v :
  idx !! k = Some r →
  zip_with (λ r cell, match cell with
                      | Some _ => Some (offset + Z.of_nat i + n * r)
                      | None => None
                      end) idx col !! k = Some (Some v) →
  v = offset + Z.of_nat i + n * r ∧ ∃ text, col !! k = Some (Some text).
Proof.
  intros Hk (r' & cell & Hv & Hr' & Hcell)%lookup_zip_with_Some.
  rewrite Hk in Hr'. injection Hr' as <-.
  destruct cell as [text|]; [|done]. injection Hv as ->. eauto.
Qed.

(** X15. With a positive offset, a label frame that has both static
    columns and whose row labels are not negative and strictly ascending,
    and a string table whose [max_value] is below the offset, the static
    ids are all reserved: one entry is appended for every reservation, in
    the order of the generator, with the reserved id and the label of the
    cell; the ids are strictly ascending, and [max_value] becomes the last
    one. *)
Theorem static_reservations_succeed offset df_json colN colS s m :
  0 < offset →
  StronglySorted Z.lt (index df_json) →
  Forall (λ r, 0 ≤ r) (index df_json) →
  getcol df_json "Name" = Ok colN →
  getcol df_json "SpellDesc" = Ok colS →
  max_value s = Ok m → m < offset →
  ∃ df_ids s' es,
    build_df_ids offset (STATIC_COLUMNS offset) df_json = Ok df_ids
    ∧ all_add_id df_json (reservations df_ids) s = Ok s'
    ∧ entries (values s') = entries (values s) ++ es
    ∧ Forall2 (λ e c, id e = c.2
                      ∧ override df_json c.1.1 c.1.2 = Some (TLK.text e))
        es (reservations df_ids)
    ∧ StronglySorted Z.lt (m :: (id <$> es))
    ∧ max_value s' = Ok (default m (last (id <$> es))).
Proof.
  intros Hoff Hs Hnn HN HS Hm Hlt.
  pose proof (StronglySorted_lt_NoDup _ Hs) as Hnd.
  unfold build_df_ids, STATIC_COLUMNS.
  rewrite bool_decide_eq_true_2 by done. simpl. rewrite HN, HS. simpl.
  set (zN := zip_with _ (index df_json) colN).
  set (zS := zip_with _ (index df_json) colS).
  set (df_ids := Frame (index df_json) [("Name", zN); ("SpellDesc", zS)]).
  assert (∀ r column v, (r, column, v) ∈ reservations df_ids →
            offset ≤ v
            ∧ ∃ text, at_ df_json r column = Ok text) as Helem.
  { intros r column v (k & col & Hk & Hcol & Hv)%elem_of_reservations.
    simpl in Hk, Hcol. rewrite Forall_forall in Hnn.
    pose proof (Hnn _ (list_elem_of_lookup_2 _ _ _ Hk)) as Hr.
    apply elem_of_cons in Hcol as [[= -> ->]|Hcol];
      [|apply list_elem_of_singleton in Hcol as [= -> ->]].
    - apply (static_cell offset 2 0 _ _ _ _ _ Hk) in Hv as [-> [text Ht]].
      split; [simpl; lia|]. exists text. unfold at_. rewrite HN. simpl.
      by rewrite (filter_zip_NoDup _ _ k r (Some text)).
    - apply (static_cell offset 2 1 _ _ _ _ _ Hk) in Hv as [-> [text Ht]].
      split; [simpl; lia|]. exists text. unfold at_. rewrite HS. simpl.
      by rewrite (filter_zip_NoDup _ _ k r (Some text)). }
  assert (StronglySorted Z.lt (reservations df_ids).*2) as Hsorted.
  { unfold reservations.
    apply (mjoin_imap_sorted _ (λ r, offset + 2 * r)
             (λ r, offset + 2 * r + 1)); [intros; lia|done|].
    intros k r Hk. simpl.
    destruct (zN !! k) as [[vN|]|] eqn:EN; destruct (zS !! k) as [[vS|]|] eqn:ES;
      simpl;
      try (apply (static_cell offset 2 0 _ _ _ _ _ Hk) in EN as [-> _]);
      try (apply (static_cell offset 2 1 _ _ _ _ _ Hk) in ES as [-> _]);
      simpl; split; repeat constructor; lia. }
  destruct (all_add_id_ascending df_json (reservations df_ids) s m Hm)
    as (s' & es & Hrun & He & HF & Hm').
  { constructor; [done|]. apply Forall_forall. intros v Hv.
    apply list_elem_of_fmap in Hv as ([[r column] v'] & -> & Hin).
    apply Helem in Hin as [? _]. simpl. lia. }
  { apply Forall_forall. intros [[r column] v] Hin.
    apply Helem in Hin as [? ?]. simpl. split; [unfold OFFSET; lia|done]. }
  assert (id <$> es = (reservations df_ids).*2) as Hids.
  { clear -HF. induction HF as [|e c es cs [Hid _] _ IH]; [done|].
    by rewrite !fmap_cons, Hid, IH. }
  exists df_ids, s', es. split_and!; try done.
  - rewrite Hids. constructor; [done|]. apply Forall_forall. intros v Hv.
    apply list_elem_of_fmap in Hv as ([[r column] v'] & -> & Hin).
    apply Helem in Hin as [? _]. simpl. lia.
  - by rewrite Hids.
Qed.
End static_reservations.

Lemma static_reservations_succeed_witness :
  ∃ df_ids s' es,
    build_df_ids 5000 (STATIC_COLUMNS 5000) spell_labels_partial = Ok df_ids
    ∧ all_add_id spell_labels_partial (reservations df_ids) init = Ok s'
    ∧ entries (values s') = entries (values init) ++ es
    ∧ Forall2 (λ e c, id e = c.2
                      ∧ override spell_labels_partial c.1.1 c.1.2
                        = Some (text e))
        es (reservations df_ids)
    ∧ StronglySorted Z.lt (0 :: (id <$> es))
    ∧ max_value s' = Ok (default 0 (last (id <$> es))).
Proof.
  refine (static_reservations_succeed 5000 spell_labels_partial _ _ init 0
            _ _ _ eq_refl eq_refl eq_refl _).
  - lia.
  - repeat constructor; lia.
  - repeat constructor; lia.
  - lia.
Defined.

(** ** Spells without a static column *)

Section missing_static_column.
Implicit Types (s : t) (pop : popper) (df_2da : DataFrame value)
  (df_json rj : DataFrame (option string)) (column : string).

Lemma getcol_KeyError {A} (df : DataFrame A) column :
  column ∉ names df → getcol df column = Raise KeyError.
Proof.
  intros Hn. destruct (getcol df column) as [col|e] eqn:E.
  - apply getcol_elem_of in E. destruct Hn.
    by apply (list_elem_of_fmap_2 fst) in E.
  - unfold getcol in E. destruct (list_find _ _) as [[? [? ?]]|]; [done|].
    by injection E as <-.
Qed.

Lemma map_columns_total pop todo rj s :
  Forall (λ c, c ∈ names rj) todo →
  ∃ mapped s1, map_columns pop todo rj s = Ok (mapped, s1).
Proof.
  induction todo as [|column todo IH] in s |- *; intros Hall; simpl.
  { by eexists _, _. }
  apply Forall_cons in Hall as [Hin Hall].
  destruct (getcol_is_Ok rj column Hin) as [col Hcol]. rewrite Hcol. simpl.
  destruct (series_map_add_total pop col s) as (out & s1 & Hser).
  rewrite Hser. simpl.
  destruct (IH s1 Hall) as (outs & s2 & Hrec). rewrite Hrec.
  by eexists _, _.
Qed.

(** X14. With a positive offset, the merge for spells raises [KeyError]
    when one of the columns "Name" and "SpellDesc" is missing in the label
    frame or in the table, although the frames share a column and the
    label frame has rows with distinct labels. *)
Theorem spells_without_static_column pop offset df_2da df_json s :
  0 < offset →
  NoDup (index df_json) → index df_json ≠ [] →
  (∃ column, column ∈ names df_json ∧ column ∈ names df_2da) →
  (∃ column, column ∈ ["Name"; "SpellDesc"]
             ∧ (column ∉ names df_json ∨ column ∉ names df_2da)) →
  add_2da_labels pop "spells" offset df_2da df_json s = Raise KeyError.
Proof.
  intros Hoff Hnd Hrows (shared & Hs1 & Hs2) (column & Hcol & Hmiss).
  unfold add_2da_labels. set (rj := restrict df_json (names df_2da)).
  assert (column ∉ names rj) as Hmiss'.
  { unfold rj. rewrite names_restrict. intros [? ?]. by destruct Hmiss. }
  assert (empty_frame rj = false) as ->.
  { unfold empty_frame. apply orb_false_iff.
    rewrite !bool_decide_eq_false. split; [done|].
    assert (shared ∈ names rj) as Hin by by apply names_restrict.
    intros Hnil. rewrite Hnil in Hin. by apply elem_of_nil in Hin. }
  rewrite bool_decide_eq_true_2 by done. unfold add_spell_labels.
  destruct (map_columns_total pop
              (sort_by String.leb
                 (filter (λ c, c ∉ STATIC_COLUMNS offset) (names rj))) rj s)
    as (mapped & s1 & Hmap).
  { apply Forall_forall. intros c. rewrite sort_by_perm.
    by intros [_ ?]%list_elem_of_filter. }
  rewrite Hmap. simpl.
  assert (∃ d1, update df_2da (overwrite_columns rj mapped) = Ok d1)
    as [d1 Hupd].
  { unfold update. rewrite bool_decide_eq_true_2 by exact Hnd. eauto. }
  rewrite Hupd. simpl.
  unfold STATIC_COLUMNS. rewrite (bool_decide_eq_true_2 (0 < offset)) by done.
  rewrite bool_decide_eq_false_2 by done.
  unfold build_df_ids. simpl.
  apply elem_of_cons in Hcol as [->|Hcol];
    [|apply list_elem_of_singleton in Hcol as ->].
  - by rewrite (getcol_KeyError rj "Name").
  - rewrite (getcol_KeyError rj "SpellDesc") by done.
    destruct (decide ("Name" ∈ names rj)) as [Hin|Hin].
    + by destruct (getcol_is_Ok rj "Name" Hin) as [col ->].
    + by rewrite (getcol_KeyError rj "Name").
Qed.
Lemma spells_without_static_column_witness :
  add_2da_labels smallest "spells" 5000 spells_2da
    (Frame [0; 1] [("Name", [Some "Fireball"; Some "Frost"])]) init
  = Raise KeyError.
Proof.
  apply spells_without_static_column.
  - lia.
  - simpl. apply NoDup_cons. split; [|apply NoDup_singleton].
    by intros ?%list_elem_of_singleton.
  - done.
  - exists "Name". split; [by left|]. right. by left.
  - exists "SpellDesc". split; [right; by left|]. left.
    by intros ?%list_elem_of_singleton.
Defined.
End missing_static_column.

(** ** The cells that the special rule fills *)

Section spells_cells.
Implicit Types (s : t) (pop : popper) (df_2da : DataFrame value)
  (df_json rj : DataFrame (option string)) (column text : string).

(** The value that the frame of shifted static ids holds for a row. *)
Lemma loc_shifted_static (g : Z → Z) idx (col : list (option string)) r :
  loc idx
    (refs ((λ cell : option Z, (λ i, i + OFFSET) <$> cell)
           <$> zip_with (λ r cell, match cell with
                                   | Some _ => Some (g r)
                                   | None => None
                                   end) idx col)) r
  = (λ _, Num (g r + OFFSET)) <$> loc idx col r.
Proof.
  unfold refs. rewrite !loc_fmap, (loc_static g).
  by destruct (loc idx col r).
Qed.

(** X17. With a positive offset, a cell of the merged spells table in the
    static column number [i] for which the label frame has a label holds
    [offset + i + 2 * r + OFFSET], where [r] is the label of the row. *)
Theorem spells_static_cells pop offset df_2da df_json s merged s' :
  0 < offset →
  add_2da_labels pop "spells" offset df_2da df_json s = Ok (merged, s') →
  ∀ (i : nat) j column new k v r text,
    STATIC_COLUMNS offset !! i = Some column →
    columns merged !! j = Some (column, new) → new !! k = Some v →
    index df_2da !! k = Some r →
    override df_json r column = Some text →
    v = Num (offset + Z.of_nat i + 2 * r + OFFSET).
Proof.
  intros Hoff H i j column new k v r text Hi Hj Hk Hr Ho.
  unfold add_2da_labels in H.
  set (rj := restrict df_json (names df_2da)) in *.
  destruct (empty_frame rj) eqn:Eempty.
  { injection H as <- <-.
    rewrite <- (override_restrict df_2da) in Ho by by eapply lookup_names.
    fold rj in Ho. by rewrite empty_frame_override in Ho. }
  rewrite bool_decide_eq_true_2 in H by done. unfold add_spell_labels in H.
  apply bind_Ok in H as ([mapped s1] & Hmap & H).
  apply bind_Ok in H as (d1 & Hup1 & H).
  unfold STATIC_COLUMNS in H, Hi.
  rewrite (bool_decide_eq_true_2 (0 < offset)) in H, Hi by done.
  rewrite bool_decide_eq_false_2 in H by done.
  apply bind_Ok in H as (df_ids & Hids & H).
  apply bind_Ok in H as (s2 & Hall & H).
  apply bind_Ok in H as (d2 & Hup2 & [= <- <-]).
  apply update_spec in Hup1 as (Hidx1 & Hnm1 & _).
  apply update_spec in Hup2 as (_ & Hnm2 & Hcell2).
  destruct (Hcell2 j column new k v Hj Hk) as (this1 & v1 & Hj1 & _ & ->).
  rewrite Hidx1, Hr. simpl.
  assert (column ∈ names df_2da) as Hin.
  { rewrite <- Hnm1. by eapply lookup_names. }
  rewrite <- (override_restrict df_2da) in Ho by done. fold rj in Ho.
  unfold build_df_ids in Hids. simpl in Hids.
  destruct (getcol rj "Name") as [colN|] eqn:EN; [simpl in Hids|done].
  destruct (getcol rj "SpellDesc") as [colS|] eqn:ES; [simpl in Hids|done].
  injection Hids as <-. simpl. unfold override in Ho.
  destruct i as [|[|i]]; [| |done]; injection Hi as <-.
  - rewrite getcol_cons, decide_True by done.
    rewrite EN in Ho. change (index rj) with (index df_json) in Ho.
    rewrite loc_shifted_static, Ho. simpl. f_equal; lia.
  - rewrite getcol_cons, decide_False by done.
    rewrite getcol_cons, decide_True by done.
    rewrite ES in Ho. change (index rj) with (index df_json) in Ho.
    rewrite loc_shifted_static, Ho. simpl. f_equal; lia.
Qed.

Lemma spells_static_cells_witness :
  add_2da_labels smallest "spells" 3 spells_2da spell_labels_partial init
  = Ok (Frame [0; 1] [("Label", [Str "Fireball"; Str "Frost"]);
                      ("Name", [Num (3 + OFFSET); Num (5 + OFFSET)]);
                      ("SpellDesc", [Num (4 + OFFSET); Num 77]);
                      ("AltMessage", [Str "****"; Str "****"])],
        Mk (MkValues 0 [Entry 3 "Fireball"; Entry 4 "Burns.";
                        Entry 5 "Frost"])
           {["Fireball" := 3 + OFFSET; "Burns." := 4 + OFFSET;
             "Frost" := 5 + OFFSET]}
           {[1; 2]})
  ∧ Num (5 + OFFSET) = Num (3 + Z.of_nat 0 + 2 * 1 + OFFSET).
Proof.
  assert (0 < 3) as Hoff by lia.
  assert (add_2da_labels smallest "spells" 3 spells_2da spell_labels_partial
            init
          = Ok (Frame [0; 1] [("Label", [Str "Fireball"; Str "Frost"]);
                              ("Name", [Num (3 + OFFSET); Num (5 + OFFSET)]);
                              ("SpellDesc", [Num (4 + OFFSET); Num 77]);
                              ("AltMessage", [Str "****"; Str "****"])],
                Mk (MkValues 0 [Entry 3 "Fireball"; Entry 4 "Burns.";
                                Entry 5 "Frost"])
                   {["Fireball" := 3 + OFFSET; "Burns." := 4 + OFFSET;
                     "Frost" := 5 + OFFSET]}
                   {[1; 2]})) as H by (vm_compute; reflexivity).
  split; [exact H|].
  exact (spells_static_cells smallest 3 spells_2da spell_labels_partial init
           _ _ Hoff H 0%nat 1%nat "Name" [Num (3 + OFFSET); Num (5 + OFFSET)]
           1%nat (Num (5 + OFFSET)) 1 "Frost"
           eq_refl eq_refl eq_refl eq_refl eq_refl).
Defined.

(** ** Spells without static ids *)

Lemma map_columns_cached pop todo rj s mapped s1 :
  map_columns pop todo rj s = Ok (mapped, s1) →
  (∀ text z, existing s !! text = Some z → existing s1 !! text = Some z)
  ∧ mapped.*1 = todo
  ∧ Forall (λ m, ∃ col, getcol rj m.1 = Ok col
                        ∧ mirrors (cached_ref s1) col (refs m.2)) mapped.
Proof.
  induction todo as [|column todo IH] in s, mapped |- *; simpl.
  - by intros [= <- <-].
  - intros (col & Hcol & H)%bind_Ok.
    apply bind_Ok in H as ([out s0] & Hser & H).
    apply bind_Ok in H as ([outs s2] & Hrec & [= <- <-]).
    apply series_map_add_spec in Hser as (_ & Hkeep & Hm).
    apply IH in Hrec as (Hkeep' & Hnames & HF). split_and!.
    + eauto.
    + by rewrite fmap_cons, Hnames.
    + constructor; [|done]. exists col. split; [done|]. simpl.
      eapply mirrors_impl; [|done].
      intros text v (z & -> & Hz). exists z. eauto.
Qed.

Lemma getcol_overwrite_with (P : string → value → Prop) idx cols mapped
    column :
  (∀ out col, (column, out) ∈ mapped →
              getcol (Frame idx cols) column = Ok col →
              mirrors P col (refs out)) →
  match getcol (Frame idx cols) column with
  | Ok col =>
      ∃ that, getcol (overwrite_columns (Frame idx cols) mapped) column = Ok that
        ∧ mirrors (λ text v, column ∈ mapped.*1 → P text v) col that
  | Raise _ =>
      ∃ e, getcol (overwrite_columns (Frame idx cols) mapped) column = Raise e
  end.
Proof.
  intros Hmapped. induction cols as [|[c col0] cols IH].
  { by exists KeyError. }
  unfold overwrite_columns. simpl. rewrite getcol_cons in Hmapped |- *.
  destruct (decide (c = column)) as [->|Hne].
  - destruct (list_find (λ p, p.1 = column) mapped)
      as [[i [n out]]|] eqn:Ef.
    + apply list_find_Some in Ef as (Hi & Hn & _). simpl in Hn. subst n.
      rewrite getcol_cons, decide_True by done. eexists. split; [done|].
      eapply mirrors_impl; [|eapply Hmapped; [|done]]; [by eauto|].
      by eapply list_elem_of_lookup_2.
    + rewrite getcol_cons, decide_True by done. eexists. split; [done|].
      apply mirrors_Str. intros text v Hin. exfalso.
      apply list_elem_of_fmap in Hin as ([n out] & Hn & Hin). simpl in Hn.
      subst n. apply list_find_None in Ef. rewrite Forall_forall in Ef.
      by apply (Ef _ Hin).
  - assert (∀ x, getcol (Frame idx ((c, x) :: columns
              (overwrite_columns (Frame idx cols) mapped))) column
            = getcol (overwrite_columns (Frame idx cols) mapped) column) as Hx.
    { intros x. by rewrite getcol_cons, decide_False. }
    destruct (list_find _ mapped) as [[i [n out]]|]; rewrite Hx; by apply IH.
Qed.

Lemma overwrite_lookup_with (P : string → value → Prop) rj mapped column r :
  Forall (λ m, ∃ col, getcol rj m.1 = Ok col
                      ∧ mirrors P col (refs m.2)) mapped →
  match override rj r column with
  | Some text =>
      ∃ w, match getcol (overwrite_columns rj mapped) column with
           | Ok that => loc (index rj) that r
           | Raise _ => None
           end = Some w
        ∧ (column ∈ mapped.*1 → P text w)
  | None => True
  end.
Proof.
  intros HF. unfold override. destruct rj as [idx cols].
  pose proof (getcol_overwrite_with P idx cols mapped column) as Hg.
  destruct (getcol (Frame idx cols) column) as [col|] eqn:Ec; [|done].
  destruct Hg as (that & -> & Hm).
  { intros out col' Hin [= <-]. rewrite Forall_forall in HF.
    destruct (HF _ Hin) as (col' & Hc' & Hm). simpl in Hc', Hm.
    rewrite Ec in Hc'. by injection Hc' as <-. }
  simpl. pose proof (loc_mirrors _ idx _ _ r Hm) as Hl.
  by destruct (loc idx col r).
Qed.

(** X18. With an offset that is not positive there are no static columns:
    the merge for spells then follows the general rule, every cell for
    which the label frame has a label holds the id that the string table
    caches for that label, and texts cached before keep their ids. *)
Theorem spells_without_offset pop offset df_2da df_json s merged s' :
  offset ≤ 0 →
  add_2da_labels pop "spells" offset df_2da df_json s = Ok (merged, s') →
  (∀ text z, existing s !! text = Some z → existing s' !! text = Some z)
  ∧ ∀ j column new k v text,
      columns merged !! j = Some (column, new) → new !! k = Some v →
      label_for df_2da df_json column k = Some text →
      cached_ref s' text v.
Proof.
  intros Hoff H. unfold add_2da_labels in H.
  set (rj := restrict df_json (names df_2da)) in *.
  destruct (empty_frame rj) eqn:Eempty.
  { injection H as <- <-. split; [done|].
    intros j column new k v text Hj Hk Hl.
    rewrite <- (label_for_restrict df_2da df_json) in Hl
      by by eapply lookup_names.
    unfold label_for in Hl. destruct (index df_2da !! k); [simpl in Hl|done].
    by rewrite empty_frame_override in Hl. }
  rewrite bool_decide_eq_true_2 in H by done. unfold add_spell_labels in H.
  unfold STATIC_COLUMNS in H.
  rewrite (bool_decide_eq_false_2 (0 < offset)) in H by lia.
  apply bind_Ok in H as ([mapped s1] & Hmap & H).
  apply bind_Ok in H as (d1 & Hup & H).
  rewrite bool_decide_eq_true_2 in H by done. injection H as <- <-.
  apply map_columns_cached in Hmap as (Hkeep & Hnames & HF).
  split; [done|]. intros j column new k v text Hj Hk Hl.
  apply update_spec in Hup as (_ & Hnm & Hcell).
  destruct (Hcell j column new k v Hj Hk) as (this & old & Hthis & _ & ->).
  rewrite <- (label_for_restrict df_2da df_json) in Hl
    by by eapply lookup_names.
  fold rj in Hl. unfold label_for in Hl.
  destruct (index df_2da !! k) as [r|]; [simpl in *|done].
  pose proof (overwrite_lookup_with (cached_ref s1) rj mapped column r HF)
    as Hlook.
  rewrite Hl in Hlook. destruct Hlook as (w & Hw & HP). simpl in Hw.
  rewrite Hw. simpl. apply HP. rewrite Hnames.
  unfold override in Hl. destruct (getcol rj column) as [col|] eqn:Ec; [|done].
  eapply elem_of_todo; [done|]. apply not_elem_of_nil.
Qed.

Lemma spells_without_offset_witness :
  add_2da_labels smallest "spells" 0 spells_2da spell_labels_partial init
  = Ok (Frame [0; 1] [("Label", [Str "Fireball"; Str "Frost"]);
                      ("Name", [Num (0 + OFFSET); Num (1 + OFFSET)]);
                      ("SpellDesc", [Num (2 + OFFSET); Num 77]);
                      ("AltMessage", [Str "****"; Str "****"])],
        Mk (MkValues 0 [Entry 0 "Fireball"; Entry 1 "Frost";
                        Entry 2 "Burns."])
           {["Fireball" := 0 + OFFSET; "Frost" := 1 + OFFSET;
             "Burns." := 2 + OFFSET]} ∅)
  ∧ ∃ z, Num (2 + OFFSET) = Num z ∧ z = 2 + OFFSET.
Proof.
  assert (0 ≤ 0) as Hoff by lia.
  assert (add_2da_labels smallest "spells" 0 spells_2da spell_labels_partial
            init
          = Ok (Frame [0; 1] [("Label", [Str "Fireball"; Str "Frost"]);
                              ("Name", [Num (0 + OFFSET); Num (1 + OFFSET)]);
                              ("SpellDesc", [Num (2 + OFFSET); Num 77]);
                              ("AltMessage", [Str "****"; Str "****"])],
                Mk (MkValues 0 [Entry 0 "Fireball"; Entry 1 "Frost";
                                Entry 2 "Burns."])
                   {["Fireball" := 0 + OFFSET; "Frost" := 1 + OFFSET;
                     "Burns." := 2 + OFFSET]} ∅)) as H
    by (vm_compute; reflexivity).
  split; [exact H|].
  destruct (spells_without_offset smallest 0 spells_2da spell_labels_partial
              init _ _ Hoff H) as [_ Hcell].
  destruct (Hcell 2%nat "SpellDesc" [Num (2 + OFFSET); Num 77] 0%nat
              (Num (2 + OFFSET)) "Burns." eq_refl eq_refl eq_refl)
    as (z & Hz & Hc).
  exists z. split; [exact Hz|].
  vm_compute in Hc. by injection Hc as <-.
Defined.
End spells_cells.

(** ** A table of added texts, written and read back *)

Section add_only_round_trip.
Implicit Types (s : t) (pop : popper) (text : string).

Lemma add_cache_sound pop text s v s' :
  cache_sound s → add pop text s = Ok (v, s') → cache_sound s'.
Proof.
  intros Hc Hadd.
  apply add_cases in Hadd
    as [[_ ->]|(Hn & i & -> & He & _ & Hx & _)]; [done|].
  intros text' v'. rewrite Hx, He, lookup_insert.
  case_decide as Heq.
  - intros _. exists (Entry i text). split; [|done].
    apply elem_of_app. right. by left.
  - intros (e & Hin & Ht)%Hc. exists e. split; [|done].
    apply elem_of_app. by left.
Qed.

Lemma run_adds_sound calls s s' :
  cache_sound s → run (adds calls) s = Ok s' → cache_sound s'.
Proof.
  induction calls as [|[pop text] calls IH] in s |- *; simpl.
  { by intros ? [= <-]. }
  intros Hc (s1 & Hstep & Hrun)%bind_Ok.
  apply bind_Ok in Hstep as ([v s0] & Hadd & [= ->]).
  eapply IH; [|done]. by eapply add_cache_sound.
Qed.

Lemma seqZ_sorted (R : relation Z) m (n : nat) :
  (∀ x y, x < y → R x y) → StronglySorted R (seqZ m (Z.of_nat n)).
Proof.
  intros HR. induction n as [|n IH] in m |- *; [constructor|].
  rewrite seqZ_cons by lia. constructor.
  - replace (Z.pred (Z.of_nat (S n))) with (Z.of_nat n) by lia. apply IH.
  - apply Forall_forall. intros x Hx%elem_of_seqZ. apply HR. lia.
Qed.

Lemma StronglySorted_fmap_inv {A B} (f : A → B) (R : relation B) (l : list A) :
  StronglySorted R (f <$> l) → StronglySorted (λ x y, R (f x) (f y)) l.
Proof.
  induction l as [|x l IH]; [constructor|].
  rewrite fmap_cons. intros [Hs Hall]%StronglySorted_inv.
  constructor; [by apply IH|]. rewrite Forall_fmap in Hall.
  eapply Forall_impl; [exact Hall|]. by intros y.
Qed.

(** The entries of a table without gaps are in ascending order of id. *)
Lemma dense_sorted s :
  dense s →
  sort_by (λ x y, bool_decide (id x ≤ id y)) (entries (values s))
  = entries (values s).
Proof.
  intros (_ & Hi & _). apply sort_by_fixed.
  assert (StronglySorted (λ x y : Z, bool_decide (x ≤ y) = true)
            (id <$> entries (values s))) as Hs.
  { fold (ids s). rewrite Hi. unfold len. apply seqZ_sorted.
    intros x y ?. apply bool_decide_eq_true. lia. }
  exact (StronglySorted_fmap_inv id _ _ Hs).
Qed.

Lemma dense_lookup s e :
  dense s → e ∈ entries (values s) →
  existing s !! TLK.text e = Some (id e + OFFSET).
Proof. intros (_ & _ & Hc). apply Hc. Qed.

(** What [from_json] caches for a table without gaps. *)
Lemma dense_text_to_id s text :
  dense s → cache_sound s →
  text_to_id (entries (values s)) !! text
  = (λ v, v - OFFSET) <$> existing s !! text.
Proof.
  intros Hd Hc. rewrite text_to_id_last.
  destruct (last (filter (λ e, TLK.text e = text) (entries (values s))))
    as [e|] eqn:El.
  - apply last_Some_elem_of, list_elem_of_filter in El as [<- Hin].
    rewrite (dense_lookup s e Hd Hin). simpl. f_equal. lia.
  - apply last_None in El.
    destruct (existing s !! text) as [v|] eqn:Ev; [|done].
    apply Hc in Ev as (e & Hin & Ht).
    assert (e ∈ filter (λ e, TLK.text e = text) (entries (values s))) as Hf
      by by apply list_elem_of_filter.
    rewrite El in Hf. by apply elem_of_nil in Hf.
Qed.

(** X19. A table that was filled by at least one call of [add] and by
    calls of [add] only, written by [to_tlk] and read back by [from_json]:
    the entries come back as they were, there are no blanks as before, and
    every text is cached with the id it had minus [OFFSET], the id of its
    entry. *)
Theorem add_only_round_trip (calls : list (popper * string)) :
  calls ≠ [] →
  ∃ s s', run (adds calls) init = Ok s
    ∧ from_json (to_tlk s).1 = Ok s'
    ∧ values s' = values s
    ∧ blanks s' = blanks s
    ∧ ∀ text, existing s' !! text = (λ v, v - OFFSET) <$> existing s !! text.
Proof.
  intros Hne.
  destruct (run_adds_dense calls init) as (s & Hrun & Hd).
  { split_and!; [done..|]. by intros e ?%elem_of_nil. }
  assert (cache_sound s) as Hc.
  { eapply run_adds_sound; [|done]. intros text v Hv. simpl in Hv.
    by rewrite lookup_empty in Hv. }
  assert (entries (values s) ≠ []) as Hent.
  { destruct calls as [|[pop text] calls]; [done|]. simpl in Hrun.
    apply bind_Ok in Hrun as (s1 & Hstep & Hrun).
    apply bind_Ok in Hstep as ([v s0] & Hadd & [= ->]).
    rewrite (add_fresh_len pop text init) in Hadd by done.
    injection Hadd as _ <-. apply run_prefix in Hrun as [l Hl].
    simpl in Hl. by rewrite Hl. }
  assert ((to_tlk s).1 = values s) as Hv.
  { unfold to_tlk. simpl. rewrite (dense_sorted s Hd). by destruct (values s). }
  exists s. rewrite Hv. unfold from_json.
  pose proof (dense_text_to_id s) as Hlook.
  set (m := text_to_id (entries (values s))) in *.
  assert (∀ i, i ∈ cached m ↔ i ∈ ids s) as Hcached.
  { intros i. rewrite elem_of_cached. split.
    - intros [text Hi]. rewrite Hlook in Hi by done.
      destruct (existing s !! text) as [v|] eqn:Ev; [|done].
      injection Hi as <-. pose proof Ev as (e & Hin & <-)%Hc.
      rewrite (dense_lookup s e Hd Hin) in Ev. injection Ev as <-.
      replace (id e + OFFSET - OFFSET) with (id e) by lia.
      by apply list_elem_of_fmap_2.
    - intros (e & -> & Hin)%list_elem_of_fmap. exists (TLK.text e).
      rewrite Hlook, (dense_lookup s e Hd Hin) by done. simpl. f_equal. lia. }
  destruct (py_max (cached m)) as [top|e] eqn:Etop.
  2:{ apply py_max_nil_inv in Etop. destruct (entries (values s)) as [|e0 l]
        eqn:El; [done|].
      assert (id e0 ∈ cached m) as Hin.
      { apply Hcached. unfold ids. rewrite El. left. }
      rewrite Etop in Hin. by apply elem_of_nil in Hin. }
  eexists. split; [done|]. split; [done|]. simpl. split_and!; [done| |].
  - destruct Hd as (Hb & Hi & _). rewrite Hb. apply set_eq. intros i.
    rewrite elem_of_list_to_set, list_elem_of_filter, elem_of_seqZ.
    split; [|by intros ?%elem_of_empty]. intros [Hn Hr]. destruct Hn.
    apply Hcached. rewrite Hi. apply elem_of_seqZ.
    apply py_max_spec in Etop as [Htop _]. apply Hcached in Htop.
    rewrite Hi in Htop. apply elem_of_seqZ in Htop. lia.
  - intros text. by apply Hlook.
Qed.

Lemma add_only_round_trip_witness :
  ∃ s s', run (adds [(smallest, "a"); (smallest, "b")]) init = Ok s
    ∧ from_json (to_tlk s).1 = Ok s'
    ∧ values s' = values s
    ∧ blanks s' = blanks s
    ∧ ∀ text, existing s' !! text = (λ v, v - OFFSET) <$> existing s !! text.
Proof.
  assert ([(smallest, "a"); (smallest, "b")] ≠ []) as H by done.
  exact (add_only_round_trip [(smallest, "a"); (smallest, "b")] H).
Defined.
End add_only_round_trip.

(** ** When the ids stay distinct *)

Section tight_tables.
Implicit Types (s : t) (pop : popper) (text : string) (ops : list op).

Lemma NoDup_length_range (l : list Z) top :
  NoDup l → (∀ i, 0 ≤ i ≤ top ↔ i ∈ l) → 0 ≤ top + 1 →
  Z.of_nat (length l) = top + 1.
Proof.
  intros Hnd Hl Htop.
  assert (l ≡ₚ seqZ 0 (top + 1)) as ->.
  { apply NoDup_Permutation; [done|apply NoDup_seqZ|].
    intros i. rewrite <- Hl, elem_of_seqZ. lia. }
  rewrite length_seqZ. lia.
Qed.

Lemma tight_empty_step o s s' :
  entries (values s) = [] → existing s = ∅ → blanks s = ∅ →
  above o s → step o s = Ok s' → tight s'.
Proof.
  intros He Hx Hb Ha Hstep.
  assert (max_value s = Ok 0) as Hm.
  { apply max_value_spec. by left. }
  assert (len s = 0) as Hlen by (unfold len; by rewrite He).
  assert (∃ text, entries (values s') = [Entry 0 text]
                  ∧ existing s' = {[text := 0 + OFFSET]}
                  ∧ blanks s' = ∅) as (text & He' & Hx' & Hb').
  { destruct o as [pop text|i text]; simpl in Hstep, Ha.
    - apply bind_Ok in Hstep as ([v s1] & Hadd & [= ->]).
      rewrite (add_fresh_len pop text s) in Hadd
        by (by rewrite ?Hx, ?lookup_empty).
      injection Hadd as _ <-. simpl. exists text.
      by rewrite He, Hx, Hlen, Hb.
    - rewrite decide_True in Ha by done. subst i.
      apply bind_Ok in Hstep as ([v s1] & Hadd & [= ->]).
      apply add_id_cases in Hadd
        as (m & Hm' & _ & _ & He' & _ & Hx' & Hb').
      rewrite Hm in Hm'. injection Hm' as <-. exists text.
      by rewrite He', Hx', Hb', He, Hx, Hb. }
  right. exists 0. unfold ids. rewrite He', Hb'. simpl. split_and!.
  - apply max_value_spec. right. rewrite Hx'. split.
    + exists text. by rewrite lookup_singleton_eq.
    + intros k v [-> <-]%lookup_singleton_Some. lia.
  - done.
  - apply NoDup_singleton.
  - intros i. rewrite list_elem_of_singleton. split; [intros ?; left; lia|].
    intros [->|?%elem_of_empty]; [lia|done].
  - by intros i ?%elem_of_empty.
Qed.

Lemma tight_step o s s' :
  tight s → above o s → step o s = Ok s' → tight s'.
Proof.
  intros [(He & Hx & Hb)|(top & Hm & Hne & Hnd & Hcov & Hdis)] Ha Hstep.
  { by eapply tight_empty_step. }
  assert (0 ≤ top) as Htop.
  { destruct (entries (values s)) as [|e l] eqn:El; [done|].
    assert (id e ∈ ids s) as Hin by (unfold ids; rewrite El; left).
    assert (0 ≤ id e ≤ top) by (apply Hcov; by left). lia. }
  destruct o as [pop text|i text]; simpl in Hstep, Ha.
  - apply bind_Ok in Hstep as ([v s1] & Hadd & [= ->]).
    apply add_cases in Hadd
      as [[_ ->]|(Hn & i & -> & He & _ & Hx & Hb' & Hi)].
    { right. by exists top. }
    assert ((0 ≤ i ≤ top + 1) ∧ (i ∉ ids s)
            ∧ (i = top + 1 → blanks s = ∅)) as (Hr & Hni & Hlast).
    { destruct Hi as [Hin|[Hb ->]].
      - split; [|split; [by apply Hdis|]].
        + assert (0 ≤ i ≤ top) by (apply Hcov; by right). lia.
        + intros ->. assert (0 ≤ top + 1 ≤ top) by (apply Hcov; by right).
          lia.
      - assert (len s = top + 1) as Hlen.
        { unfold len. rewrite <- (length_fmap id).
          apply NoDup_length_range; [done| |lia].
          intros i. rewrite Hcov, Hb. split; [intros [?|?%elem_of_empty]|];
            [done|done|by left]. }
        rewrite Hlen. split; [lia|]. split; [|done].
        intros Hin. assert (0 ≤ top + 1 ≤ top) by (apply Hcov; by left).
        lia. }
    right. exists (Z.max top i). rewrite (ids_snoc _ _ _ He). simpl.
    split_and!.
    + eapply max_value_insert; eauto. lia.
    + rewrite He. by destruct (entries (values s)).
    + apply NoDup_app. split_and!; [done| |apply NoDup_singleton].
      intros x Hx' Heq%list_elem_of_singleton. by subst x.
    + intros x. rewrite elem_of_app, list_elem_of_singleton, Hb'.
      rewrite elem_of_difference, not_elem_of_singleton. split.
      * intros Hx'. destruct (decide (x = i)) as [->|Hxi]; [left; by right|].
        assert (0 ≤ x ≤ top) as Hx''.
        { destruct (decide (i = top + 1)) as [->|]; lia. }
        apply Hcov in Hx'' as [?|?]; [left; by left|by right].
      * intros [[Hx'| ->]|[Hx' _]]; [| lia |].
        -- assert (0 ≤ x ≤ top) by (apply Hcov; by left). lia.
        -- assert (0 ≤ x ≤ top) by (apply Hcov; by right). lia.
    + intros x. rewrite Hb', elem_of_difference, not_elem_of_singleton.
      rewrite elem_of_app, list_elem_of_singleton.
      intros [Hx' Hxi] [?|?]; [by apply (Hdis x)|done].
  - rewrite decide_False in Ha by done. destruct Ha as (m & Hm' & Hlt).
    rewrite Hm in Hm'. injection Hm' as <-.
    apply bind_Ok in Hstep as ([v s1] & Hadd & [= ->]).
    destruct (add_id_above i text s top Hm Hlt)
      as (s2 & Hadd2 & He & Hmax & Hb').
    rewrite Hadd2 in Hadd. injection Hadd as _ <-.
    right. exists i. rewrite (ids_snoc _ _ _ He). simpl. split_and!.
    + done.
    + rewrite He. by destruct (entries (values s)).
    + apply NoDup_app. split_and!; [done| |apply NoDup_singleton].
      intros x Hx' Heq%list_elem_of_singleton. subst x.
      assert (0 ≤ i ≤ top) by (apply Hcov; by left). lia.
    + intros x. rewrite elem_of_app, list_elem_of_singleton, Hb'. split.
      * intros Hx'. destruct (decide (x = i)) as [->|Hxi]; [left; by right|].
        destruct (decide (x ≤ top)) as [Hle|Hgt].
        -- assert (0 ≤ x ≤ top) as Hx'' by lia.
           apply Hcov in Hx'' as [?|?]; [left; by left|right; by left].
        -- right. right. lia.
      * intros [[Hx'| ->]|[Hx'|Hx']]; [| lia | |lia].
        -- assert (0 ≤ x ≤ top) by (apply Hcov; by left). lia.
        -- assert (0 ≤ x ≤ top) by (apply Hcov; by right). lia.
    + intros x. rewrite Hb', elem_of_app, list_elem_of_singleton.
      intros [Hx'|Hx'] [Hin| ->].
      * by apply (Hdis x).
      * assert (0 ≤ i ≤ top) by (apply Hcov; by right). lia.
      * assert (0 ≤ x ≤ top) by (apply Hcov; by left). lia.
      * lia.
Qed.

Lemma tight_run ops s s' :
  tight s → guarded ops s → run ops s = Ok s' → tight s'.
Proof.
  induction ops as [|o ops IH] in s |- *; simpl.
  { by intros ? _ [= <-]. }
  intros Ht [Ha Hg] (s1 & Hstep & Hrun)%bind_Ok.
  eapply IH; [|by apply Hg|done]. by eapply tight_step.
Qed.

(** X20. When every reservation keeps to the rule (the id 0 on an empty
    table, an id above [max_value] otherwise), a run of calls of [add] and
    [add_id] from the empty table leaves a table in which no two entries
    share an id and the occupancy invariant holds, and the next [add] of a
    new text appends an entry with an id that no entry has. *)
Theorem ids_stay_distinct ops s :
  guarded ops init → run ops init = Ok s →
  NoDup (ids s)
  ∧ occupancy s
  ∧ ∀ pop text v s',
      existing s !! text = None → add pop text s = Ok (v, s') →
      (v - OFFSET ∉ ids s) ∧ ids s' = ids s ++ [v - OFFSET].
Proof.
  intros Hg Hrun.
  assert (tight s) as Ht.
  { eapply tight_run; [|done|done]. by left. }
  assert (NoDup (ids s) ∧ occupancy s) as [Hnd Hocc].
  { destruct Ht as [(He & _ & _)|(top & Hm & Hne & Hnd & Hcov & Hdis)].
    { unfold occupancy, ids. rewrite He. split; [constructor|].
      by intros top i [= ]. }
    split; [done|]. intros top' i [Htop' _]%py_max_spec Hr.
    assert (0 ≤ top' ≤ top) by (apply Hcov; by left).
    assert (0 ≤ i ≤ top) as Hi by lia.
    apply Hcov in Hi as [Hi|Hi].
    - left. split.
      + rewrite (length_filter_fmap id). by apply length_filter_NoDup.
      + intros Hb. by apply (Hdis i).
    - right. split; [by apply Hdis|done]. }
  split; [done|]. split; [done|].
  intros pop text v s' Hn Hadd.
  assert (tight s') as Ht'.
  { eapply (tight_step (Add pop text)); [done|done|].
    simpl. by rewrite Hadd. }
  apply add_cases in Hadd
    as [[Hsome _]|(_ & i & -> & He & _)]; [congruence|].
  replace (i + OFFSET - OFFSET) with i by lia.
  rewrite (ids_snoc _ _ _ He). simpl. split; [|done].
  assert (NoDup (ids s')) as Hnd'.
  { destruct Ht' as [(He' & _ & _)|(top & _ & _ & Hnd' & _)]; [|done].
    rewrite He in He'. by destruct (entries (values s)). }
  rewrite (ids_snoc _ _ _ He) in Hnd'. simpl in Hnd'.
  apply NoDup_app in Hnd' as (_ & Hni & _). intros Hin.
  apply (Hni i Hin). by left.
Qed.

Lemma ids_stay_distinct_witness :
  let ops := [Add smallest "a"; AddId 4 "b"; Add smallest "c"] in
  let s := Mk (MkValues 0 [Entry 0 "a"; Entry 4 "b"; Entry 1 "c"])
              {["a" := 0 + OFFSET; "b" := 4 + OFFSET; "c" := 1 + OFFSET]}
              {[2; 3]} in
  guarded ops init ∧ run ops init = Ok s ∧ NoDup (ids s) ∧ occupancy s.
Proof.
  assert (guarded [Add smallest "a"; AddId 4 "b"; Add smallest "c"] init)
    as Hg.
  { split; [done|]. intros s1 H1. vm_compute in H1. injection H1 as <-.
    split.
    - exists 0. split; [reflexivity|lia].
    - intros s2 H2. split; [done|]. by intros s3 H3. }
  assert (run [Add smallest "a"; AddId 4 "b"; Add smallest "c"] init
          = Ok (Mk (MkValues 0 [Entry 0 "a"; Entry 4 "b"; Entry 1 "c"])
                  {["a" := 0 + OFFSET; "b" := 4 + OFFSET; "c" := 1 + OFFSET]}
                  {[2; 3]})) as Hrun by (by vm_compute).
  split; [exact Hg|]. split; [exact Hrun|].
  destruct (ids_stay_distinct _ _ Hg Hrun) as (H1 & H2 & _).
  exact (conj H1 H2).
Defined.
End tight_tables.

(** ** Ids in a table that only the general rule fills *)

Section positions.
Implicit Types (s : t) (pop : popper) (df_2da : DataFrame value)
  (df_json rj : DataFrame (option string)) (name column text : string)
  (calls : list (popper * string)).

Lemma adds_app calls calls' : adds (calls ++ calls') = adds calls ++ adds calls'.
Proof. unfold adds. by rewrite fmap_app. Qed.

Lemma series_map_add_adds pop col s out s' :
  series_map_add pop col s = Ok (out, s') →
  ∃ calls, run (adds calls) s = Ok s'.
Proof.
  intros (Hrun & _)%series_map_add_spec.
  exists ((λ text, (pop, text)) <$> omap (λ c, c) col).
  unfold adds. by rewrite <- list_fmap_compose.
Qed.

Lemma columns_map_add_adds pop cols s outs s' :
  columns_map_add pop cols s = Ok (outs, s') →
  ∃ calls, run (adds calls) s = Ok s'.
Proof.
  induction cols as [|[name col] cols IH] in s, outs |- *; simpl.
  - intros [= <- <-]. by exists [].
  - intros ([out s1] & Hcol & H)%bind_Ok.
    apply bind_Ok in H as ([outs' s2] & Hrec & [= <- <-]).
    apply series_map_add_adds in Hcol as [calls1 Hrun1].
    apply IH in Hrec as [calls2 Hrun2].
    exists (calls1 ++ calls2). by rewrite adds_app, (run_app _ _ _ _ Hrun1).
Qed.

Lemma general_merge_adds pop name offset df_2da df_json s merged s' :
  name ≠ "spells" →
  add_2da_labels pop name offset df_2da df_json s = Ok (merged, s') →
  ∃ calls, run (adds calls) s = Ok s'.
Proof.
  intros Hname H. unfold add_2da_labels in H.
  destruct (empty_frame _).
  { injection H as <- <-. by exists []. }
  rewrite bool_decide_eq_false_2 in H by done.
  apply bind_Ok in H as ([cols s1] & Hmap & H).
  apply bind_Ok in H as (d1 & _ & [= <- <-]).
  by eapply columns_map_add_adds.
Qed.

(** X21. A merge under the general rule into a string table that calls
    of [add] alone have built from the empty table: the table after the
    merge is again built by calls of [add] alone, and a cell for which the
    label frame has a label holds [OFFSET] plus the position, in the
    string table, of the entry with that label, whose id is that
    position. *)
Theorem general_merge_points_to_entries pop name offset df_2da df_json
    calls s merged s' :
  name ≠ "spells" →
  run (adds calls) init = Ok s →
  add_2da_labels pop name offset df_2da df_json s = Ok (merged, s') →
  (∃ calls', run (adds (calls ++ calls')) init = Ok s')
  ∧ ∀ j column new k v text,
      columns merged !! j = Some (column, new) → new !! k = Some v →
      label_for df_2da df_json column k = Some text →
      ∃ n : nat,
        entries (values s') !! n = Some (Entry (Z.of_nat n) text)
        ∧ v = Num (Z.of_nat n + OFFSET).
Proof.
  intros Hname Hrun H.
  destruct (general_merge_adds _ _ _ _ _ _ _ _ Hname H) as [calls' Hrun'].
  assert (run (adds (calls ++ calls')) init = Ok s') as Hall
    by by rewrite adds_app, (run_app _ _ _ _ Hrun).
  split; [by exists calls'|].
  destruct (run_adds_dense (calls ++ calls') init) as (s2 & Hrun2 & Hd).
  { split_and!; [done..|]. by intros e ?%elem_of_nil. }
  rewrite Hall in Hrun2. injection Hrun2 as <-.
  assert (cache_sound s') as Hc.
  { eapply run_adds_sound; [|done]. intros text v Hv. simpl in Hv.
    by rewrite lookup_empty in Hv. }
  destruct (general_merge_cells _ _ _ _ _ _ _ _ Hname H) as (_ & _ & Hcell).
  intros j column new k v text Hj Hk Hl.
  destruct (Hcell _ _ _ _ _ _ Hj Hk Hl) as (z & -> & Hz).
  pose proof Hz as (e & Hin & <-)%Hc.
  rewrite (dense_lookup s' e Hd Hin) in Hz. injection Hz as <-.
  apply list_elem_of_lookup_1 in Hin as [n Hn]. exists n.
  destruct Hd as (_ & Hi & _).
  assert (ids s' !! n = Some (id e)) as Hid
    by (unfold ids; by rewrite list_lookup_fmap, Hn).
  rewrite Hi in Hid. apply lookup_seqZ in Hid as [Hid _].
  destruct e as [i text]. simpl in *. subst i.
  split; [by rewrite Hn; do 2 f_equal; lia|do 2 f_equal; lia].
Qed.

Lemma general_merge_points_to_entries_witness :
  "feat" ≠ "spells"
  ∧ run (adds []) init = Ok init
  ∧ add_2da_labels smallest "feat" 5000 feat_2da feat_labels init
    = Ok (feat_merged, feat_table)
  ∧ ∃ n : nat,
      entries (values feat_table) !! n = Some (Entry (Z.of_nat n) "Alertness")
      ∧ Num (0 + OFFSET) = Num (Z.of_nat n + OFFSET).
Proof.
  assert ("feat" ≠ "spells") as H1 by done.
  assert (run (adds []) init = Ok init) as H2 by done.
  assert (add_2da_labels smallest "feat" 5000 feat_2da feat_labels init
          = Ok (feat_merged, feat_table)) as H3 by (vm_compute; reflexivity).
  split; [exact H1|]. split; [exact H2|]. split; [exact H3|].
  destruct (general_merge_points_to_entries smallest "feat" 5000 feat_2da
              feat_labels [] init feat_merged feat_table H1 H2 H3)
    as [_ Hcell].
  exact (Hcell 1%nat "FEAT" [Num (0 + OFFSET); Str "****"] 0%nat
           (Num (0 + OFFSET)) "Alertness" eq_refl eq_refl eq_refl).
Defined.
End positions.
